(** * Apple receipt validation (lib/apple.js): a shallow embedding

    The JavaScript module is embedded as Rocq functions over a small model of
    JavaScript values.  Objects and arrays live in a store and are handled
    through references, because [handleResponse] mutates the payload it is
    given and hands the very same object to the caller.  Callback-passing
    code ([send], [tryProd], [trySandbox], [done], [handleResponse]) is kept
    in continuation-passing style over an explicit state that holds the
    store, the three variables captured by the closures and the log of the
    requests sent so far.  [getPurchaseData] only reads its arguments and
    builds a fresh array of fresh records, which is returned as a list.

    The file has three parts: the embedding of the source, the vocabulary
    in which the properties are stated, and the properties with their
    proofs.

    Limits of the model.  Numbers are integers or NaN, of any size, where
    JavaScript has doubles.  [Date.now()] is one reading per call of
    [getPurchaseData].  Logging ([verbose.log]) is left out.  Two modules
    that [apple.js] requires are not among the sources: [./async], of which
    [series] is modelled, and [../constants], of which three constants are
    modelled; their definitions say so. *)

From stdpp Require Import gmap strings list fin_maps pretty.
From Stdlib Require Import ZArith Lia Ascii.

(** ** Values *)

Definition loc := nat.

(** Numbers that the program computes with: status codes, [parseInt] results
    and clock readings are integers, and [parseInt] may answer [NaN].
    Fractions and infinities are not modelled. *)
Inductive number :=
  | Int (z : Z)
  | NaN.

Inductive value :=
  | VUndef
  | VNull
  | VBool (b : bool)
  | VNum (n : number)
  | VStr (s : string)
  | VError (message : string)   (* the result of [new Error(message)] *)
  | VRef (l : loc).             (* an object or an array in the store *)

Inductive hobj :=
  | HObj (fields : gmap string value)
  | HArr (elems : list value).

Abbreviation heap := (list hobj).

#[global] Instance number_eq_dec : EqDecision number.
Proof. solve_decision. Defined.

#[global] Instance value_eq_dec : EqDecision value.
Proof. solve_decision. Defined.

(** Two ways of not producing a value: the TypeError that JavaScript raises
    when a property of [undefined] or [null] is read or written, and
    [Unmodelled] for the coercions that this development leaves out
    (string-to-number conversion, stringification of objects, properties
    added to arrays). *)
Inductive abort :=
  | TypeError
  | Unmodelled.

Inductive res (A : Type) :=
  | Ok (a : A)
  | Abort (e : abort).
Arguments Ok {A} a.
Arguments Abort {A} e.

#[global] Instance res_ret : MRet res := λ A a, Ok a.
#[global] Instance res_bind : MBind res := λ A B f r,
  match r with
  | Ok a => f a
  | Abort e => Abort e
  end.

(** ** Primitive operations *)

(** ToBoolean. *)
Definition truthy (v : value) : bool :=
  match v with
  | VUndef | VNull => false
  | VBool b => b
  | VNum (Int z) => negb (z =? 0)%Z
  | VNum NaN => false
  | VStr s => negb (String.eqb s "")
  | VError _ | VRef _ => true
  end.

(** ToString, as applied to the argument of [parseInt] and to a computed
    property name.  Integers print in decimal (JavaScript switches to
    exponent notation from 10^21 on, beyond every status code and
    millisecond date). *)
Definition ToString (v : value) : res string :=
  match v with
  | VUndef => Ok "undefined"
  | VNull => Ok "null"
  | VBool true => Ok "true"
  | VBool false => Ok "false"
  | VNum (Int z) => Ok (pretty z)
  | VNum NaN => Ok "NaN"
  | VStr s => Ok s
  | VError m => Ok ("Error: " +:+ m)
  | VRef _ => Abort Unmodelled
  end.

(** [v[k]] for the property names that the program reads.  None of them is
    inherited from a prototype, so a primitive answers [undefined], except
    for the length of a string. *)
Definition get_prop (h : heap) (v : value) (k : string) : res value :=
  match v with
  | VUndef | VNull => Abort TypeError
  | VBool _ | VNum _ | VError _ => Ok VUndef
  | VStr s => Ok (if String.eqb k "length" then VNum (Int (Z.of_nat (String.length s))) else VUndef)
  | VRef l =>
      match h !! l with
      | Some (HObj f) => Ok (default VUndef (f !! k))
      | Some (HArr es) =>
          Ok (if String.eqb k "length" then VNum (Int (Z.of_nat (length es))) else VUndef)
      | None => Abort Unmodelled
      end
  end.

(** [v[k] = x].  The module is not in strict mode: an assignment to a
    property of a primitive is silently dropped. *)
Definition set_prop (h : heap) (v : value) (k : string) (x : value) : res heap :=
  match v with
  | VUndef | VNull => Abort TypeError
  | VBool _ | VNum _ | VStr _ => Ok h
  | VError _ => Abort Unmodelled
  | VRef l =>
      match h !! l with
      | Some (HObj f) => Ok (<[l := HObj (<[k := x]> f)]> h)
      | Some (HArr _) | None => Abort Unmodelled
      end
  end.

(** An object literal is a fresh object at the end of the store. *)
Definition alloc (o : hobj) (h : heap) : loc * heap := (length h, h ++ [o]).

(** [v > 0]. *)
Definition gt_zero (v : value) : res bool :=
  match v with
  | VNum (Int z) => Ok (0 <? z)%Z
  | VNum NaN | VUndef | VNull => Ok false
  | VBool b => Ok b
  | VStr _ | VError _ | VRef _ => Abort Unmodelled
  end.

(** [v === z] for an integer [z]. *)
Definition strict_eq_int (v : value) (z : Z) : bool :=
  match v with
  | VNum (Int z') => (z' =? z)%Z
  | _ => false
  end.

(** [a < b] on numbers. *)
Definition num_lt (a b : number) : bool :=
  match a, b with
  | Int x, Int y => (x <? y)%Z
  | _, _ => false
  end.

(** [Array.isArray(v)]. *)
Definition isArray (h : heap) (v : value) : bool :=
  match v with
  | VRef l => match h !! l with Some (HArr _) => true | _ => false end
  | _ => false
  end.

(** The elements of an array; anything else that the loop of
    [getPurchaseData] could be made to walk over is left out. *)
Definition as_array (h : heap) (v : value) : res (list value) :=
  match v with
  | VRef l => match h !! l with Some (HArr es) => Ok es | _ => Abort Unmodelled end
  | _ => Abort Unmodelled
  end.

(** ** parseInt(s, 10) *)

Definition is_space (a : Ascii.ascii) : bool :=
  let n := Ascii.nat_of_ascii a in
  (n =? 32)%nat || ((9 <=? n)%nat && (n <=? 13)%nat).

Fixpoint skip_spaces (s : string) : string :=
  match s with
  | String a s' => if is_space a then skip_spaces s' else s
  | EmptyString => s
  end.

Definition digit_of (a : Ascii.ascii) : option Z :=
  let n := Z.of_nat (Ascii.nat_of_ascii a) in
  if ((48 <=? n) && (n <=? 57))%Z then Some (n - 48)%Z else None.

(** The longest prefix of decimal digits; [None] when it is empty. *)
Fixpoint digits (s : string) (acc : option Z) : option Z :=
  match s with
  | String a s' =>
      match digit_of a with
      | Some d => digits s' (Some (10 * default 0 acc + d)%Z)
      | None => acc
      end
  | EmptyString => acc
  end.

Definition parseInt_string (s : string) : number :=
  let s := skip_spaces s in
  let '(neg, s) :=
    match s with
    | String "-"%char s' => (true, s')
    | String "+"%char s' => (false, s')
    | _ => (false, s)
    end in
  match digits s None with
  | Some n => Int (if neg then - n else n)%Z
  | None => NaN
  end.

Definition parseInt (v : value) : res number :=
  s ← ToString v; Ok (parseInt_string s).


(** ** Tables and constants *)

Definition errorMap : gmap string value :=
  list_to_map [
    ("21000", VStr "The App Store could not read the JSON object you provided.");
    ("21002", VStr "The data in the receipt-data property was malformed.");
    ("21003", VStr "The receipt could not be authenticated.");
    ("21004", VStr "The shared secret you provided does not match the shared secret on file for your account.");
    ("21005", VStr "The receipt server is not currently available.");
    ("21006", VStr "This receipt is valid but the subscription has expired. When this status code is returned to your server, the receipt data is also decoded and returned as part of the response.");
    ("21007", VStr "This receipt is a sandbox receipt, but it was sent to the production service for verification.");
    ("21008", VStr "This receipt is a production receipt, but it was sent to the sandbox service for verification.");
    ("2", VStr "The receipt is valid, but purchased nothing.")
  ].

(** [errorMap[status]].  A status that is a string and not a key of the
    table could still name a member inherited from Object.prototype; that
    case is left out. *)
Definition errorMap_get (status : value) : res value :=
  match status with
  | VStr s =>
      match errorMap !! s with
      | Some m => Ok m
      | None => Abort Unmodelled
      end
  | _ => k ← ToString status; Ok (default VUndef (errorMap !! k))
  end.

Module REC_KEYS.
Definition IN_APP : string := "in_app".
Definition LRI : string := "latest_receipt_info".
Definition BUNDLE_ID : string := "bundle_id".
Definition TRANSACTION_ID : string := "transaction_id".
Definition PRODUCT_ID : string := "product_id".
Definition ORIGINAL_PURCHASE_DATE_MS : string := "original_purchase_date_ms".
Definition EXPIRES_DATE_MS : string := "expires_date_ms".
Definition EXPIRES_DATE : string := "expires_date".
Definition PURCHASE_DATE_MS : string := "purchase_date_ms".
End REC_KEYS.

Module constants.
(** Modelled from the spec: the module [../constants] is not among the
    sources.  The service tag is the spec's constant tag for Apple. *)
Definition SERVICES_APPLE : value := VStr "apple".

(** Modelled from the spec: [constants.VALIDATION.SUCCESS] is missing; the
    spec's StatusCode says that [0] means success. *)
Definition VALIDATION_SUCCESS : Z := 0.

(** Modelled from the spec: [constants.VALIDATION.POSSIBLE_HACK] is
    missing; the spec's status table gives status [2] the message of a
    valid receipt that purchased nothing, which is the possible-hack
    signal of its glossary. *)
Definition VALIDATION_POSSIBLE_HACK : Z := 2.
End constants.

Definition sandboxHost : string := "sandbox.itunes.apple.com".
Definition liveHost : string := "buy.itunes.apple.com".
Definition path : string := "/verifyReceipt".

(** ** The receipt normalizer *)

Record PurchaseRecord := {
  bundleId : value;
  transactionId : value;
  productId : value;
  purchaseDate : value;
  quantity : number;
  expirationDate : number
}.

#[global] Instance PurchaseRecord_eq_dec : EqDecision PurchaseRecord.
Proof. solve_decision. Defined.

(** An entry of the [tids] object of [getPurchaseData]. *)
Record tid_entry := { time : number; index : nat }.

(** [data[i] = x] on a JavaScript array: inside the array the slot is
    replaced, at its end the array grows by one, and beyond its end the
    slots in between are holes. *)
Definition array_set {A} (data : list (option A)) (i : nat) (x : A) : list (option A) :=
  if decide (i < length data)%nat then <[i := Some x]> data
  else data ++ replicate (i - length data) None ++ [Some x].

Definition getSubscriptionExpireDate (h : heap) (data : value) : res number :=
  ms ← get_prop h data REC_KEYS.EXPIRES_DATE_MS;
  if truthy ms then parseInt ms
  else
    d ← get_prop h data REC_KEYS.EXPIRES_DATE;
    if truthy d then parseInt d else Ok (Int 0).

(** [Date.now() - exp >= 0]; the clock reading [now] is one value for the
    whole call. *)
Definition elapsed (now : Z) (exp : number) : bool :=
  match exp with
  | Int e => (0 <=? now - e)%Z
  | NaN => false
  end.

(** [options && options.ignoreExpired], as a condition. *)
Definition ignoreExpired (h : heap) (options : value) : res bool :=
  if truthy options then
    v ← get_prop h options "ignoreExpired"; Ok (truthy v)
  else Ok false.

Section normalizer.
Variable now : Z.
Variable h : heap.
Variables purchase options : value.

(** The record built at lines 216-223 for the item [item] with expiry [exp]. *)
Definition item_record (item : value) (exp : number) : res PurchaseRecord :=
  receipt ← get_prop h purchase "receipt";
  b ← get_prop h receipt REC_KEYS.BUNDLE_ID;
  t ← get_prop h item REC_KEYS.TRANSACTION_ID;
  p ← get_prop h item REC_KEYS.PRODUCT_ID;
  d ← get_prop h item REC_KEYS.ORIGINAL_PURCHASE_DATE_MS;
  q ← get_prop h item "quantity";
  q ← parseInt q;
  Ok {| bundleId := b; transactionId := t; productId := p;
        purchaseDate := d; quantity := q; expirationDate := exp |}.

(** One turn of the loop of lines 198-224 on the pair of [tids] and
    [data]. *)
Definition loop_body (st : gmap string tid_entry * list (option PurchaseRecord))
    (item : value) : res (gmap string tid_entry * list (option PurchaseRecord)) :=
  let '(tids, data) := st in
  tid ← get_prop h item ("original_" +:+ REC_KEYS.TRANSACTION_ID);
  pd ← get_prop h item REC_KEYS.PURCHASE_DATE_MS;
  pdate ← parseInt pd;
  exp ← getSubscriptionExpireDate h item;
  ign ← ignoreExpired h options;
  if ign && truthy (VNum exp) && elapsed now exp then Ok (tids, data)
  else
    key ← ToString tid;
    let index :=
      match tids !! key with
      | Some e => if num_lt (time e) pdate then index e else length data
      | None => length data
      end in
    let tids := <[key := {| time := pdate; index := length data |}]> tids in
    r ← item_record item exp;
    Ok (tids, array_set data index r).

Fixpoint loop (st : gmap string tid_entry * list (option PurchaseRecord))
    (items : list value) : res (gmap string tid_entry * list (option PurchaseRecord)) :=
  match items with
  | [] => Ok st
  | item :: rest => st' ← loop_body st item; loop st' rest
  end.

(** The list that the loop walks over: [in_app], followed by
    [latest_receipt_info] when that is an array. *)
Definition working_list (in_app : value) : res (list value) :=
  items ← as_array h in_app;
  lri ← get_prop h purchase REC_KEYS.LRI;
  if truthy lri && isArray h lri then
    more ← as_array h lri; Ok (items ++ more)
  else Ok items.

(** The result is [None] for JavaScript's [null] and the array [data]
    otherwise. *)
Definition getPurchaseData : res (option (list (option PurchaseRecord))) :=
  if negb (truthy purchase) then Ok None
  else
    receipt ← get_prop h purchase "receipt";
    if negb (truthy receipt) then Ok None
    else
      in_app ← get_prop h receipt REC_KEYS.IN_APP;
      if truthy in_app then
        items ← working_list in_app;
        st ← loop (∅, []) items;
        Ok (Some st.2)
      else
        b ← get_prop h receipt REC_KEYS.BUNDLE_ID;
        t ← get_prop h receipt REC_KEYS.TRANSACTION_ID;
        p ← get_prop h receipt REC_KEYS.PRODUCT_ID;
        d ← get_prop h receipt REC_KEYS.ORIGINAL_PURCHASE_DATE_MS;
        q ← get_prop h receipt "quantity";
        q ← parseInt q;
        exp ← getSubscriptionExpireDate h purchase;
        Ok (Some [Some {| bundleId := b; transactionId := t; productId := p;
                          purchaseDate := d; quantity := q;
                          expirationDate := exp |}]).
End normalizer.

(** ** The verification orchestrator *)

(** The state of one call of [validatePurchase]: the store, the variables
    [status], [validatedData] and [isValid] shared by the closures, and the
    requests handed to the transport so far, oldest first. *)
Record vstate := {
  store : heap;
  status : value;
  validatedData : value;
  isValid : bool;
  requests : list (string * gmap string value)
}.

Definition set_store (h : heap) (st : vstate) : vstate :=
  {| store := h; status := status st; validatedData := validatedData st;
     isValid := isValid st; requests := requests st |}.

(** How a call ends: the caller's callback [cb] is invoked with an error and
    a result, or an exception escapes. *)
Inductive outcome :=
  | Called (error data : value) (st : vstate)
  | Aborted (e : abort) (st : vstate).

Definition proc := vstate → outcome.

(** Statements in continuation-passing style. *)
Definition read (v : value) (k : string) (cont : value → proc) : proc :=
  λ st, match get_prop (store st) v k with
        | Ok x => cont x st
        | Abort e => Aborted e st
        end.

Definition write (v : value) (k : string) (x : value) (cont : proc) : proc :=
  λ st, match set_prop (store st) v k x with
        | Ok h' => cont (set_store h' st)
        | Abort e => Aborted e st
        end.

Definition new (o : hobj) (cont : value → proc) : proc :=
  λ st, let '(l, h') := alloc o (store st) in cont (VRef l) (set_store h' st).

Definition eval {A} (r : res A) (cont : A → proc) : proc :=
  λ st, match r with
        | Ok a => cont a st
        | Abort e => Aborted e st
        end.

Definition assign_status (v : value) (cont : proc) : proc :=
  λ st, cont {| store := store st; status := v; validatedData := validatedData st;
                isValid := isValid st; requests := requests st |}.

Definition assign_validatedData (v : value) (cont : proc) : proc :=
  λ st, cont {| store := store st; status := status st; validatedData := v;
                isValid := isValid st; requests := requests st |}.

Definition assign_isValid (b : bool) (cont : proc) : proc :=
  λ st, cont {| store := store st; status := status st;
                validatedData := validatedData st; isValid := b;
                requests := requests st |}.

(** [errorMap[status] || 'Unknown'] and its misspelt twin of line 270. *)
Definition or_else (m : value) (fallback : string) : value :=
  if truthy m then m else VStr fallback.

(** Modelled from the spec: [async.series] of [./async] is not among the
    sources.  The spec's concurrency model has the two attempts executed
    sequentially, and its state machine makes Failed terminal: the tasks
    run in order, the first one that passes an error to [next] ends the
    series with that error, and [done] is called without an error after
    the last task. *)
Fixpoint series (tasks : list ((value → proc) → proc)) (done : value → proc) : proc :=
  match tasks with
  | [] => done VUndef
  | task :: rest =>
      task (λ error, if truthy error then done error else series rest done)
  end.

Definition handleResponse (receipt data : value) (cb : value → value → proc) : proc :=
  write data "service" constants.SERVICES_APPLE (
  read data "status" (λ s,
  if strict_eq_int s constants.VALIDATION_SUCCESS then
    read data "receipt" (λ r,
    read r REC_KEYS.IN_APP (λ in_app,
    if truthy in_app then
      read in_app "length" (λ len,
      if negb (truthy len) then
        write data "status" (VNum (Int constants.VALIDATION_POSSIBLE_HACK)) (
        read data "status" (λ s',
        eval (errorMap_get s') (λ m,
        write data "message" m (
        cb (VError "failed to validate for empty purchased list") data))))
      else
        cb VNull data)
    else
      cb VNull data))
  else
    eval (errorMap_get s) (λ m,
    write data "message" (or_else m "Unkown") (
    cb (VError "failed to validate purchase") data)))).

Section orchestrator.
(** [config] is the module's variable of that name: [null] or an object. *)
Variable config : option (gmap string value).

(** The HTTP transport [request.post]: for a url and a JSON body it calls
    back with an error and a parsed body, both living in the store that
    the call starts from. *)
Variable request_post : string → gmap string value → value * value.

Definition send (url : string) (content : gmap string value)
    (cb : value → value → proc) : proc :=
  λ st, let '(error, body) := request_post url content in
        cb error body
           {| store := store st; status := status st;
              validatedData := validatedData st; isValid := isValid st;
              requests := requests st ++ [(url, content)] |}.

Section validatePurchase.
Variables secret receipt : value.
Variable cb : value → value → proc.

Definition prodPath : string := "https://" +:+ liveHost +:+ path.
Definition sandboxPath : string := "https://" +:+ sandboxHost +:+ path.

Definition applePassword : value :=
  match config with
  | Some c => default VUndef (c !! "applePassword")
  | None => VUndef
  end.

Definition content : gmap string value :=
  let content := {[ "receipt-data" := receipt ]} in
  let content :=
    if truthy applePassword then <["password" := applePassword]> content
    else content in
  if truthy secret then <["password" := secret]> content else content.

(** Lines 101-110 and 143-152: the transport reported an error. *)
Definition request_failed (error data : value) (next : value → proc) : proc :=
  (if truthy data then read data "status" else λ k, k (VNum (Int 1))) (λ s,
  assign_status s (
  eval (errorMap_get s) (λ m,
  new (HObj {[ "status" := s; "message" := or_else m "Unknown" ]}) (λ o,
  assign_validatedData o (
  next error))))).

(** Lines 113-121 and 154-162: Apple answered with an error status. *)
Definition status_failed (s : value) (next : value → proc) : proc :=
  assign_status s (
  eval (errorMap_get s) (λ m,
  let emsg := or_else m "Unknown" in
  eval (ToString emsg) (λ text,
  new (HObj {[ "status" := s; "message" := emsg ]}) (λ o,
  assign_validatedData o (
  next (VError text)))))).

Definition tryProd (next : value → proc) : proc :=
  send prodPath content (λ error data,
    if truthy error then request_failed error data next
    else
      read data "status" (λ s,
      eval (gt_zero s) (λ positive,
      if positive && negb (strict_eq_int s 21007) && negb (strict_eq_int s 21002)
      then status_failed s next
      else if strict_eq_int s 21007 || strict_eq_int s 21002 then next VUndef
      else assign_validatedData data (assign_isValid true (next VUndef))))).

Definition trySandbox (next : value → proc) : proc :=
  λ st,
    if isValid st then next VUndef st
    else
      send sandboxPath content (λ error data,
        if truthy error then request_failed error data next
        else
          read data "status" (λ s,
          eval (gt_zero s) (λ positive,
          if positive then status_failed s next
          else assign_validatedData data (next VUndef)))) st.

Definition done (error : value) : proc :=
  λ st,
    if truthy error then cb error (validatedData st) st
    else handleResponse receipt (validatedData st) cb st.

Definition validatePurchase (h : heap) : outcome :=
  series [tryProd; trySandbox] done
    {| store := h; status := VUndef; validatedData := VUndef;
       isValid := false; requests := [] |}.
End validatePurchase.
End orchestrator.

(** ** Configuration *)

(** [key.match(/^apple/)], as a condition. *)
Definition isValidConfigKey (key : string) : bool := String.prefix "apple" key.

(** The two variables of the module that [readConfig] and [setup] assign:
    [config], which is [null] or an object, and [request], of which only
    the defaults laid over the transport are kept, the latest first. *)
Record module_state := {
  config : option (gmap string value);
  request : list value
}.

(** The loop of lines 51-56 over the own keys of [configIn], on the pair
    of [config] and [configValueSet]. *)
Definition copy_apple_keys (configIn : gmap string value) :
    gmap string value * bool :=
  map_fold (λ key v acc, if isValidConfigKey key then (<[key := v]> acc.1, true)
                         else acc)
    (∅, false) configIn.

(** [readConfig(configIn)], without the logging set-up of line 43.  An
    array has no key that starts with "apple".
    On a primitive that is not falsy the [in] of line 48 raises a TypeError
    after [config] has been reset; the state that is left then is not
    modelled. *)
Definition readConfig (h : heap) (configIn : value) (m : module_state) :
    res module_state :=
  if negb (truthy configIn) then Ok m
  else
    match configIn with
    | VRef l =>
        match h !! l with
        | Some (HObj f) =>
            let request :=
              match f !! "requestDefaults" with
              | Some defaults => defaults :: request m
              | None => request m
              end in
            let '(config, configValueSet) := copy_apple_keys f in
            Ok {| config := if configValueSet then Some config else None;
                  request := request |}
        | Some (HArr _) => Ok {| config := None; request := request m |}
        | None => Abort Unmodelled
        end
    | _ => Abort Unmodelled
    end.

(** [setup(cb)], with [env] for [process.env.APPLE_IAP_PASSWORD]; the
    callback is called in every case. *)
Definition setup (env : value) (m : module_state) : module_state :=
  if negb (truthy (applePassword (config m))) then
    if truthy env then
      {| config := Some (<["applePassword" := env]> (default ∅ (config m)));
         request := request m |}
    else m
  else m.

(** * The vocabulary of the statements *)

(** ** The error table *)

(** The status codes that [errorMap] documents. *)
Definition documented : list Z :=
  [21000; 21002; 21003; 21004; 21005; 21006; 21007; 21008; 2]%Z.

(** [errorMap[s] || 'Unknown'] for an integer status. *)
Definition mapped_message (s : Z) : value :=
  or_else (default VUndef (errorMap !! pretty s)) "Unknown".

(** ** The response handler *)

(** The test of line 252 on the payload [data]: the in-app list is there
    and has no length. *)
Definition empty_purchase (h : heap) (data : value) : res bool :=
  r ← get_prop h data "receipt";
  in_app ← get_prop h r REC_KEYS.IN_APP;
  if truthy in_app then
    len ← get_prop h in_app "length"; Ok (negb (truthy len))
  else Ok false.

(** The payload object after [handleResponse], for each of its three ways
    out. *)
Definition tagged (f : gmap string value) : gmap string value :=
  <["service" := constants.SERVICES_APPLE]> f.

Definition downgraded (f : gmap string value) : gmap string value :=
  <["message" := VStr "The receipt is valid, but purchased nothing."]>
    (<["status" := VNum (Int constants.VALIDATION_POSSIBLE_HACK)]> (tagged f)).

Definition rejected (s : Z) (f : gmap string value) : gmap string value :=
  <["message" := or_else (default VUndef (errorMap !! pretty s)) "Unkown"]> (tagged f).

(** ** Runs of the orchestrator *)

(** The status that the code takes from a failed request: the body's, when
    there is a body, and [1] otherwise (lines 104 and 146). *)
Definition failure_status (h : heap) (data : value) : res value :=
  if truthy data then get_prop h data "status" else Ok (VNum (Int 1)).

(** The object literal [{status: s, message: m}]. *)
Definition partial_result (s m : value) : hobj :=
  HObj {[ "status" := s; "message" := m ]}.


(** The state in which the sandbox request is answered. *)
Definition sandbox_state (config : option (gmap string value))
    (secret receipt : value) (h : heap) : vstate :=
  {| store := h; status := VUndef; validatedData := VUndef; isValid := false;
     requests := [(prodPath, content config secret receipt);
                  (sandboxPath, content config secret receipt)] |}.

(** Production answers, without a transport error, with one of the two
    wrong-environment statuses. *)
Definition wrong_environment (config : option (gmap string value))
    (request_post : string → gmap string value → value * value)
    (secret receipt : value) (h : heap) : Prop :=
  ∃ error l f s,
    request_post prodPath (content config secret receipt) = (error, VRef l) ∧
    truthy error = false ∧
    h !! l = Some (HObj f) ∧
    f !! "status" = Some (VNum (Int s)) ∧
    (s = 21007 ∨ s = 21002)%Z.

(** The state in which a run ends. *)
Definition final (o : outcome) : vstate :=
  match o with
  | Called _ _ st | Aborted _ st => st
  end.

(** The number of requests that went to the sandbox endpoint. *)
Definition sandbox_attempts (o : outcome) : nat :=
  length (filter (λ r, r.1 = sandboxPath) (requests (final o))).

(** A statement that sends nothing. *)
Definition keeps_log (p : proc) : Prop :=
  ∀ st, requests (final (p st)) = requests st.

(** ** The claims about the orchestrator *)

(** Production answers the request for [receipt] without a transport error
    and with an object whose status is the integer [s]. *)
Definition production_answers (config : option (gmap string value))
    (request_post : string → gmap string value → value * value)
    (secret receipt : value) (h : heap) (s : Z) : Prop :=
  ∃ error l f,
    request_post prodPath (content config secret receipt) = (error, VRef l) ∧
    truthy error = false ∧
    h !! l = Some (HObj f) ∧
    f !! "status" = Some (VNum (Int s)).

(** The run fails with an error that carries the message mapped to [s],
    and the partial result [{status: s, message}]. *)
Definition apple_status_error (s : Z) (o : outcome) : Prop :=
  ∃ text l st,
    mapped_message s = VStr text ∧
    o = Called (VError text) (VRef l) st ∧
    store st !! l = Some (partial_result (VNum (Int s)) (VStr text)).

(** The dispatch, for a class [other] of statuses that are to fail without
    a sandbox attempt. *)
Definition status_dispatch (other : Z → Prop) (config : option (gmap string value))
    (request_post : string → gmap string value → value * value)
    (secret receipt : value) (h : heap) : Prop :=
  ∀ s, production_answers config request_post secret receipt h s →
    let o := validatePurchase config request_post secret receipt Called h in
    ((s = 21007 ∨ s = 21002)%Z → sandbox_attempts o = 1) ∧
    (other s → s ≠ 21007%Z → s ≠ 21002%Z →
       sandbox_attempts o = 0 ∧ apple_status_error s o).

(** Whenever Production answers status [0] with a payload that passes
    [sound], the run succeeds with that very payload, tagged with the
    service, and no request goes to the sandbox. *)
Definition production_success (sound : heap → value → Prop)
    (config : option (gmap string value))
    (request_post : string → gmap string value → value * value)
    (secret receipt : value) (h : heap) : Prop :=
  ∀ error l f,
    request_post prodPath (content config secret receipt) = (error, VRef l) →
    truthy error = false →
    h !! l = Some (HObj f) →
    f !! "status" = Some (VNum (Int 0)) →
    sound h (VRef l) →
    let o := validatePurchase config request_post secret receipt Called h in
    sandbox_attempts o = 0 ∧
    ∃ st, o = Called VNull (VRef l) st ∧ store st = <[l := HObj (tagged f)]> h.

(** Apple reports success with the payload at [l]: on Production, or on the
    sandbox after Production named the wrong environment. *)
Definition reports_success (config : option (gmap string value))
    (request_post : string → gmap string value → value * value)
    (secret receipt : value) (h : heap) (l : loc) : Prop :=
  (∃ error f,
     (request_post prodPath (content config secret receipt) = (error, VRef l) ∨
      wrong_environment config request_post secret receipt h ∧
      request_post sandboxPath (content config secret receipt) = (error, VRef l)) ∧
     truthy error = false ∧
     h !! l = Some (HObj f) ∧
     f !! "status" = Some (VNum (Int constants.VALIDATION_SUCCESS))).

(** The receipt of the payload at [l] has the in-app list key, with an
    empty array. *)
Definition in_app_empty (h : heap) (l : loc) : Prop :=
  ∃ f lr fr la,
    h !! l = Some (HObj f) ∧
    f !! "receipt" = Some (VRef lr) ∧
    h !! lr = Some (HObj fr) ∧
    fr !! REC_KEYS.IN_APP = Some (VRef la) ∧
    h !! la = Some (HArr []).

(** The transport reports [error] with the body [data] on the Production
    attempt, or on the sandbox attempt that follows a wrong-environment
    answer of Production. *)
Definition reports_failure (config : option (gmap string value))
    (request_post : string → gmap string value → value * value)
    (secret receipt : value) (h : heap) (on_production : bool)
    (error data : value) : Prop :=
  truthy error = true ∧
  if on_production then
    request_post prodPath (content config secret receipt) = (error, data)
  else
    wrong_environment config request_post secret receipt h ∧
    request_post sandboxPath (content config secret receipt) = (error, data).

(** The run fails with [error] and the fresh partial result
    [{status: s, message: m}]. *)
Definition failed_with (error s m : value) (o : outcome) : Prop :=
  ∃ l st, o = Called error (VRef l) st ∧ store st !! l = Some (partial_result s m).

(** A transport failure ends the run with the transport's error and a
    partial result whose status and message are related to the body by
    [classify]; on Production no sandbox request follows. *)
Definition transport_failure (classify : heap → value → value → value → Prop)
    (config : option (gmap string value))
    (request_post : string → gmap string value → value * value)
    (secret receipt : value) (h : heap) : Prop :=
  ∀ on_production error data s m,
    reports_failure config request_post secret receipt h on_production error data →
    classify h data s m →
    let o := validatePurchase config request_post secret receipt Called h in
    failed_with error s m o ∧
    (on_production = true → sandbox_attempts o = 0).

(** Lines 104-108: the status is the body's when there is a body and [1]
    otherwise, and the message is looked up under that status. *)
Definition classified (h : heap) (data s m : value) : Prop :=
  failure_status h data = Ok s ∧
  ∃ m', errorMap_get s = Ok m' ∧ m = or_else m' "Unknown".








(** ** Payloads of the normalizer *)

(** A payload, its receipt object and no in-app list: the format that
    predates iOS 6. *)
Definition legacy_payload (h : heap) (purchase : value) (fr : gmap string value) : Prop :=
  ∃ lp fp lr,
    purchase = VRef lp ∧ h !! lp = Some (HObj fp) ∧
    fp !! "receipt" = Some (VRef lr) ∧ h !! lr = Some (HObj fr) ∧
    truthy (default VUndef (fr !! REC_KEYS.IN_APP)) = false.

(** The legacy payload of the spec's example, with an expiry date in its
    receipt. *)
Definition legacy_example : heap :=
  [HObj {[ "status" := VNum (Int 0); "receipt" := VRef 1 ]};
   HObj {[ "bundle_id" := VStr "com.x"; "transaction_id" := VStr "1";
           "product_id" := VStr "p1"; "quantity" := VStr "2";
           "expires_date_ms" := VStr "5000" ]};
   HObj {[ "ignoreExpired" := VBool true ]}].

(** An item of the original transaction [tid], bought at [pdate], and the
    record that the loop makes of it under the bundle id of
    [modern_example]. *)
Definition purchase_item (tid tx pdate : string) : hobj :=
  HObj {[ "original_transaction_id" := VStr tid; "transaction_id" := VStr tx;
          "product_id" := VStr "p1"; "purchase_date_ms" := VStr pdate;
          "quantity" := VStr "1" ]}.

Definition purchase_record (tx : string) : PurchaseRecord :=
  {| bundleId := VStr "com.x"; transactionId := VStr tx; productId := VStr "p1";
     purchaseDate := VUndef; quantity := Int 1; expirationDate := Int 0 |}.

(** A modern payload whose in-app list is [items], stored from location 3
    on. *)
Definition modern_example (items : list hobj) : heap :=
  [HObj {[ "status" := VNum (Int 0); "receipt" := VRef 1 ]};
   HObj {[ "bundle_id" := VStr "com.x"; "in_app" := VRef 2 ]};
   HArr (VRef <$> seq 3 (length items))] ++ items.

(** ** The loop on well-formed items *)

Definition is_ref (v : value) : bool :=
  match v with
  | VRef _ => true
  | _ => false
  end.

(** No field is itself an object or an array. *)
Definition flat (f : gmap string value) : Prop :=
  map_Forall (λ _ v, is_ref v = false) f.

#[global] Instance flat_dec f : Decision (flat f).
Proof. unfold flat. apply _. Defined.

(** An item of the working list as Apple sends it: an object with flat
    fields. *)
Definition well_formed_item (h : heap) (item : value) : Prop :=
  ∃ l f, item = VRef l ∧ h !! l = Some (HObj f) ∧ flat f.

(** [parseInt] and [ToString] on the fields of such an item, where they
    cannot fail. *)
Definition number_of (v : value) : number :=
  match parseInt v with
  | Ok n => n
  | Abort _ => NaN
  end.

Definition string_of (v : value) : string :=
  match ToString v with
  | Ok s => s
  | Abort _ => ""
  end.

(** What one turn of the loop reads off an item: the key under which it is
    filed in [tids], its purchase date, its expiry and its record.  On
    these the turn is the function [step], which [loop_body] is shown to
    compute on well-formed items. *)
Record entry := {
  key : string;
  pdate : number;
  expiry : number;
  record : PurchaseRecord
}.

Definition expiry_of (f : gmap string value) : number :=
  let ms := default VUndef (f !! REC_KEYS.EXPIRES_DATE_MS) in
  if truthy ms then number_of ms
  else
    let d := default VUndef (f !! REC_KEYS.EXPIRES_DATE) in
    if truthy d then number_of d else Int 0.

Definition entry_of (bundle : value) (f : gmap string value) : entry :=
  {| key := string_of (default VUndef (f !! "original_transaction_id"));
     pdate := number_of (default VUndef (f !! REC_KEYS.PURCHASE_DATE_MS));
     expiry := expiry_of f;
     record :=
       {| bundleId := bundle;
          transactionId := default VUndef (f !! REC_KEYS.TRANSACTION_ID);
          productId := default VUndef (f !! REC_KEYS.PRODUCT_ID);
          purchaseDate := default VUndef (f !! REC_KEYS.ORIGINAL_PURCHASE_DATE_MS);
          quantity := number_of (default VUndef (f !! "quantity"));
          expirationDate := expiry_of f |} |}.

Definition view (h : heap) (bundle item : value) : entry :=
  match item with
  | VRef l =>
      match h !! l with
      | Some (HObj f) => entry_of bundle f
      | _ => entry_of bundle ∅
      end
  | _ => entry_of bundle ∅
  end.

(** Line 205. *)
Definition skipped (ign : bool) (now : Z) (e : entry) : bool :=
  ign && truthy (VNum (expiry e)) && elapsed now (expiry e).

(** Lines 210-223 on an entry. *)
Definition step (ign : bool) (now : Z)
    (st : gmap string tid_entry * list (option PurchaseRecord)) (e : entry) :
    gmap string tid_entry * list (option PurchaseRecord) :=
  if skipped ign now e then st
  else
    let slot :=
      match st.1 !! key e with
      | Some t => if num_lt (time t) (pdate e) then index t else length st.2
      | None => length st.2
      end in
    (<[key e := {| time := pdate e; index := length st.2 |}]> st.1,
     array_set st.2 slot (record e)).

(** The receipt of the payload is an object; [bundle] is its bundle id. *)
Definition receipt_object (h : heap) (purchase : value) (fr : gmap string value) : Prop :=
  ∃ lp fp lr,
    purchase = VRef lp ∧ h !! lp = Some (HObj fp) ∧
    fp !! "receipt" = Some (VRef lr) ∧ h !! lr = Some (HObj fr).


(** Every entry of [tids] carries the purchase date of an entry seen under
    its key. *)
Definition dated (seen : list entry)
    (st : gmap string tid_entry * list (option PurchaseRecord)) : Prop :=
  ∀ k t, st.1 !! k = Some t → ∃ q, q ∈ seen ∧ key q = k ∧ pdate q = time t.

(** No entry of [post] is newer than an entry before it that has the same
    key. *)
Fixpoint no_replacement (seen post : list entry) : Prop :=
  match post with
  | [] => True
  | e :: post' =>
      (∀ q, q ∈ seen → key q = key e → num_lt (pdate q) (pdate e) = false) ∧
      no_replacement (seen ++ [e]) post'
  end.

(** ** The claim about the expiry filter *)

(** The key under which line 215 files an item. *)
Definition tid_key (h : heap) (item : value) : res string :=
  tid ← get_prop h item ("original_" +:+ REC_KEYS.TRANSACTION_ID); ToString tid.

(** The purchase date that line 201 reads off an item. *)
Definition purchase_date (h : heap) (item : value) : res number :=
  pd ← get_prop h item REC_KEYS.PURCHASE_DATE_MS; parseInt pd.

(** No item of [post] is newer than an item that comes before it in the
    working list, the items [before] coming first, and has the same
    original transaction id: none takes the branch of lines 210-213. *)
Fixpoint none_replaces (h : heap) (before post : list value) : Prop :=
  match post with
  | [] => True
  | p :: post' =>
      (∀ q a b, q ∈ before → tid_key h q = tid_key h p →
         purchase_date h q = Ok a → purchase_date h p = Ok b →
         num_lt a b = false) ∧
      none_replaces h (before ++ [p]) post'
  end.

(** A payload whose receipt carries the in-app list key, with the working
    list [items], all well-formed. *)
Definition modern_payload (h : heap) (purchase : value) (items : list value) : Prop :=
  ∃ fr,
    receipt_object h purchase fr ∧
    truthy (default VUndef (fr !! REC_KEYS.IN_APP)) = true ∧
    working_list h purchase (default VUndef (fr !! REC_KEYS.IN_APP)) = Ok items ∧
    Forall (well_formed_item h) items.


(** A subscription and its renewal: two items of the original transaction
    T1 that both expire at 9000, the second bought later; the options
    object asks to ignore expired items. *)
Definition subscription_item (tid tx pdate expires : string) : hobj :=
  HObj {[ "original_transaction_id" := VStr tid; "transaction_id" := VStr tx;
          "product_id" := VStr "p1"; "purchase_date_ms" := VStr pdate;
          "quantity" := VStr "1"; "expires_date_ms" := VStr expires ]}.

Definition renewal_example : heap :=
  [HObj {[ "status" := VNum (Int 0); "receipt" := VRef 1 ]};
   HObj {[ "bundle_id" := VStr "com.x"; "in_app" := VRef 2 ]};
   HArr [VRef 3; VRef 4];
   subscription_item "T1" "a" "100" "9000";
   subscription_item "T1" "b" "200" "9000";
   HObj {[ "ignoreExpired" := VBool true ]}].

(** ** Further concrete stores *)

(** One answer, an object with the status [s] and nothing else. *)
Definition status_only (s : Z) : heap := [HObj {[ "status" := VNum (Int s) ]}].

(** A success answer whose receipt has an empty in-app list. *)
Definition empty_in_app_example : heap :=
  [HObj {[ "status" := VNum (Int 0); "receipt" := VRef 1 ]};
   HObj {[ "in_app" := VRef 2 ]};
   HArr []].

(** ** Configuration and the request body *)

(** [config[k]], where [config] may be [null]. *)
Definition configured (c : option (gmap string value)) (k : string) : option value :=
  match c with
  | Some c => c !! k
  | None => None
  end.

(** The first value of a list that is not falsy. *)
Fixpoint first_truthy (vs : list value) : option value :=
  match vs with
  | [] => None
  | v :: vs' => if truthy v then Some v else first_truthy vs'
  end.

(** ** Requests and the store over a whole run *)

(** A statement that adds to the log of requests a list that satisfies
    [allowed]. *)
Definition extends_log (allowed : list (string * gmap string value) → Prop)
    (p : proc) : Prop :=
  ∀ st, ∃ more, requests (final (p st)) = requests st ++ more ∧ allowed more.

(** Nothing, or one request to the sandbox with the body [body]. *)
Definition at_most_sandbox (body : gmap string value)
    (more : list (string * gmap string value)) : Prop :=
  more = [] ∨ more = [(sandboxPath, body)].

(** The store [h'] is the store [h], possibly grown, with no object
    changed but the one that [d] refers to. *)
Definition agree_outside (d : value) (h h' : heap) : Prop :=
  (length h ≤ length h')%nat ∧
  ∀ l, (l < length h)%nat → d ≠ VRef l → h' !! l = h !! l.

(** When the statement calls back, the store has changed at most at the
    object that it hands to the callback. *)
Definition preserves_store (p : proc) : Prop :=
  ∀ st, match p st with
        | Called _ d st' => agree_outside d (store st) (store st')
        | Aborted _ _ => True
        end.

(** The same, for a statement that hands [v] to the callback. *)
Definition hands_back (v : value) (p : proc) : Prop :=
  ∀ st, match p st with
        | Called _ d st' => d = v ∧ agree_outside v (store st) (store st')
        | Aborted _ _ => True
        end.

(** ** The output of the normalizer *)

(** The test of line 205 on an item of the working list. *)
Definition dropped (now : Z) (h : heap) (options item : value) : bool :=
  match ignoreExpired h options, getSubscriptionExpireDate h item with
  | Ok ign, Ok exp => ign && truthy (VNum exp) && elapsed now exp
  | _, _ => false
  end.

(** The slot that lines 216-223 fill for an item. *)
Definition record_of (h : heap) (purchase item : value) : option PurchaseRecord :=
  match getSubscriptionExpireDate h item with
  | Ok exp =>
      match item_record h purchase item exp with
      | Ok r => Some r
      | Abort _ => None
      end
  | Abort _ => None
  end.

(** The records of the items that are not dropped, in the order of the
    items. *)
Definition records (now : Z) (h : heap) (purchase options : value)
    (items : list value) : list (option PurchaseRecord) :=
  record_of h purchase <$> filter (λ item, dropped now h options item = false) items.

(** Every slot kept in [tids] is a slot of [data] or the one after its
    last. *)
Definition slots_bounded
    (st : gmap string tid_entry * list (option PurchaseRecord)) : Prop :=
  ∀ k t, st.1 !! k = Some t → (index t ≤ length st.2)%nat.

(** ** What a success vouches for *)

(** Whenever the statement calls back, [post] holds of the error, of the
    result and of the state in which it does. *)
Definition ensures (post : value → value → vstate → Prop) (p : proc) : Prop :=
  ∀ st, match p st with
        | Called e d st' => post e d st'
        | Aborted _ _ => True
        end.

(** The error [null] is reported only with a payload that has passed the
    test of line 252. *)
Definition sound_success (e d : value) (st : vstate) : Prop :=
  e = VNull → empty_purchase (store st) d = Ok false.

(** ** Stores and transports of the further examples *)

(** A configuration object with a password, a key that is not Apple's and
    defaults for the transport. *)
Definition config_example : heap :=
  [HObj {[ "applePassword" := VStr "pw"; "verbose" := VBool true;
           "requestDefaults" := VStr "defaults" ]}].

(** A transport that answers by the endpoint. *)
Definition by_endpoint (production sandbox : value * value) :
    string → gmap string value → value * value :=
  λ url _, if String.eqb url prodPath then production else sandbox.

(** Production's answer 21007, followed by the sandbox's answer: status
    [s] and a legacy receipt. *)
Definition fallback_example (s : Z) : heap :=
  [HObj {[ "status" := VNum (Int 21007) ]};
   HObj {[ "status" := VNum (Int s); "receipt" := VRef 2 ]};
   HObj {[ "bundle_id" := VStr "com.x"; "transaction_id" := VStr "1" ]}].

(** * Properties *)

(** A literal is not among the literals of a list. *)
Ltac not_listed :=
  let H := fresh in
  intros H; repeat (apply elem_of_cons in H as [?|H]; [done|]);
  by apply elem_of_nil in H.

(** ** The store *)

Lemma get_prop_set_other h v k x h' w k' :
  set_prop h v k x = Ok h' → k ≠ k' → get_prop h' w k' = get_prop h w k'.
Proof.
  intros Hset Hne. destruct v; simpl in Hset; try congruence.
  destruct (h !! l) as [[f|es]|] eqn:Hl; try congruence.
  injection Hset as <-. destruct w as [| | | | | |l']; try reflexivity.
  simpl. destruct (decide (l' = l)) as [->|Hll].
  - rewrite list_lookup_insert_eq by (by eapply lookup_lt_Some).
    rewrite Hl. by rewrite lookup_insert_ne.
  - by rewrite list_lookup_insert_ne.
Qed.

Lemma set_prop_obj h l f k x :
  h !! l = Some (HObj f) →
  set_prop h (VRef l) k x = Ok (<[l := HObj (<[k := x]> f)]> h).
Proof. intros Hl. simpl. by rewrite Hl. Qed.

Lemma get_prop_obj h l f k :
  h !! l = Some (HObj f) → get_prop h (VRef l) k = Ok (default VUndef (f !! k)).
Proof. intros Hl. simpl. by rewrite Hl. Qed.

(** ** The error table *)

Lemma errorMap_get_int s :
  errorMap_get (VNum (Int s)) = Ok (default VUndef (errorMap !! pretty s)).
Proof. reflexivity. Qed.

Lemma errorMap_undocumented s : s ∉ documented → errorMap !! pretty s = None.
Proof.
  intros Hs. unfold errorMap. simpl.
  repeat (rewrite lookup_insert_ne;
    [| intros Heq; apply Hs;
       match type of Heq with
       | ?k = _ => match eval vm_compute in (parseInt_string k) with
                   | Int ?z => change k with (pretty z) in Heq
                   end
       end;
       apply (inj pretty) in Heq; subst s; unfold documented; set_solver ]).
  apply lookup_empty.
Qed.

Lemma mapped_message_undocumented s :
  s ∉ documented → mapped_message s = VStr "Unknown".
Proof. intros Hs. unfold mapped_message. by rewrite errorMap_undocumented. Qed.

(** The documented messages, as [errorMap[s] || 'Unknown'] yields them. *)
Lemma errorMap_table :
  mapped_message 21000 = VStr "The App Store could not read the JSON object you provided." ∧
  mapped_message 21002 = VStr "The data in the receipt-data property was malformed." ∧
  mapped_message 21003 = VStr "The receipt could not be authenticated." ∧
  mapped_message 21004 = VStr "The shared secret you provided does not match the shared secret on file for your account." ∧
  mapped_message 21005 = VStr "The receipt server is not currently available." ∧
  mapped_message 21006 = VStr "This receipt is valid but the subscription has expired. When this status code is returned to your server, the receipt data is also decoded and returned as part of the response." ∧
  mapped_message 21007 = VStr "This receipt is a sandbox receipt, but it was sent to the production service for verification." ∧
  mapped_message 21008 = VStr "This receipt is a production receipt, but it was sent to the sandbox service for verification." ∧
  mapped_message 2 = VStr "The receipt is valid, but purchased nothing.".
Proof. repeat split; vm_compute; reflexivity. Qed.

Lemma mapped_message_string s : ∃ text, mapped_message s = VStr text.
Proof.
  destruct (decide (s ∈ documented)) as [Hs|Hs].
  - unfold documented in Hs.
    repeat (apply elem_of_cons in Hs as [->|Hs]; [eexists; vm_compute; reflexivity|]).
    by apply elem_of_nil in Hs.
  - rewrite mapped_message_undocumented by done. eauto.
Qed.

(** ** The response handler *)

Lemma empty_purchase_set_other h v k x h' data :
  set_prop h v k x = Ok h' → k ≠ "receipt" → k ≠ "in_app" → k ≠ "length" →
  empty_purchase h' data = empty_purchase h data.
Proof.
  intros Hset H1 H2 H3. unfold empty_purchase.
  rewrite (get_prop_set_other _ _ _ _ _ data _ Hset H1).
  destruct (get_prop h data "receipt") as [r|]; [simpl|done].
  rewrite (get_prop_set_other _ _ _ _ _ r REC_KEYS.IN_APP Hset H2).
  destruct (get_prop h r REC_KEYS.IN_APP) as [ia|]; [simpl|done].
  by rewrite (get_prop_set_other _ _ _ _ _ ia _ Hset H3).
Qed.

Lemma handleResponse_run receipt l f s cb st :
  store st !! l = Some (HObj f) →
  f !! "status" = Some (VNum (Int s)) →
  handleResponse receipt (VRef l) cb st =
    if (s =? constants.VALIDATION_SUCCESS)%Z then
      match empty_purchase (store st) (VRef l) with
      | Ok true =>
          cb (VError "failed to validate for empty purchased list") (VRef l)
             (set_store (<[l := HObj (downgraded f)]> (store st)) st)
      | Ok false =>
          cb VNull (VRef l) (set_store (<[l := HObj (tagged f)]> (store st)) st)
      | Abort e => Aborted e (set_store (<[l := HObj (tagged f)]> (store st)) st)
      end
    else
      cb (VError "failed to validate purchase") (VRef l)
         (set_store (<[l := HObj (rejected s f)]> (store st)) st).
Proof.
  intros Hl Hs. pose proof (lookup_lt_Some _ _ _ Hl) as Hlt.
  unfold handleResponse, write at 1. rewrite (set_prop_obj _ _ _ _ _ Hl).
  pose proof (set_prop_obj _ _ _ "service" constants.SERVICES_APPLE Hl) as Hset.
  fold (tagged f) in *.
  set (h1 := <[l := HObj (tagged f)]> (store st)) in *.
  assert (Hl1 : h1 !! l = Some (HObj (tagged f))) by (by apply list_lookup_insert_eq).
  unfold read at 1. cbn [store set_store].
  rewrite (get_prop_obj _ _ _ _ Hl1).
  assert (Hst : tagged f !! "status" = Some (VNum (Int s)))
    by (unfold tagged; by rewrite lookup_insert_ne).
  rewrite Hst. cbn [default from_option id strict_eq_int].
  destruct (s =? constants.VALIDATION_SUCCESS)%Z eqn:Hz.
  - rewrite <- (empty_purchase_set_other _ _ _ _ _ (VRef l) Hset) by done.
    unfold empty_purchase, read.
    cbn [store set_store].
    destruct (get_prop h1 (VRef l) "receipt") as [r|e]; [|done].
    cbn [mbind res_bind].
    destruct (get_prop h1 r REC_KEYS.IN_APP) as [ia|e]; [|done].
    cbn [mbind res_bind].
    destruct (truthy ia); [|done].
    cbn [store set_store].
    destruct (get_prop h1 ia "length") as [len|e]; [|done].
    cbn [mbind res_bind].
    destruct (truthy len); cbn [negb]; [done|].
    unfold write, read, eval. cbn [store set_store].
    rewrite (set_prop_obj _ _ _ _ _ Hl1).
    set (h2 := <[l := _]> h1).
    assert (Hl2 : h2 !! l = Some (HObj (<["status" := VNum (Int constants.VALIDATION_POSSIBLE_HACK)]> (tagged f))))
      by (apply list_lookup_insert_eq; unfold h1; by rewrite length_insert).
    rewrite (get_prop_obj _ _ _ _ Hl2), lookup_insert_eq.
    cbn [default from_option id].
    rewrite errorMap_get_int.
    rewrite (set_prop_obj _ _ _ _ _ Hl2).
    unfold h2, h1. rewrite !list_insert_insert_eq. reflexivity.
  - unfold eval, write. rewrite errorMap_get_int. cbn [store set_store].
    rewrite (set_prop_obj _ _ _ _ _ Hl1).
    unfold h1. rewrite list_insert_insert_eq. reflexivity.
Qed.

(** ** Runs of the orchestrator *)

Section runs.
Variable config : option (gmap string value).
Variable request_post : string → gmap string value → value * value.
Variables secret receipt : value.
Variable cb : value → value → proc.

Local Abbreviation body := (content config secret receipt).
Local Abbreviation run := (validatePurchase config request_post secret receipt cb).

Lemma request_failed_run error data next st s m :
  failure_status (store st) data = Ok s →
  errorMap_get s = Ok m →
  request_failed error data next st =
    next error
      {| store := store st ++ [partial_result s (or_else m "Unknown")];
         status := s; validatedData := VRef (length (store st));
         isValid := isValid st; requests := requests st |}.
Proof.
  unfold failure_status, request_failed. intros Hs Hm.
  destruct (truthy data).
  - unfold read. rewrite Hs. unfold assign_status, eval. by rewrite Hm.
  - injection Hs as <-. unfold assign_status, eval. by rewrite Hm.
Qed.

Lemma status_failed_run (s : Z) next st text :
  mapped_message s = VStr text →
  status_failed (VNum (Int s)) next st =
    next (VError text)
      {| store := store st ++ [partial_result (VNum (Int s)) (VStr text)];
         status := VNum (Int s); validatedData := VRef (length (store st));
         isValid := isValid st; requests := requests st |}.
Proof.
  unfold mapped_message, status_failed. intros Hm.
  unfold assign_status, eval. rewrite errorMap_get_int.
  cbn zeta. rewrite Hm. reflexivity.
Qed.

(** Production: the transport reports an error. *)
Lemma run_production_error h error data s m :
  request_post prodPath body = (error, data) →
  truthy error = true →
  failure_status h data = Ok s →
  errorMap_get s = Ok m →
  run h =
    cb error (VRef (length h))
      {| store := h ++ [partial_result s (or_else m "Unknown")];
         status := s; validatedData := VRef (length h);
         isValid := false; requests := [(prodPath, body)] |}.
Proof.
  intros Hp He Hs Hm. unfold validatePurchase, series, tryProd, send.
  rewrite Hp, He.
  erewrite request_failed_run by eassumption.
  rewrite He. unfold done. cbn [validatedData]. by rewrite He.
Qed.

(** Production: Apple answers with a positive status other than the two
    wrong-environment ones. *)
Lemma run_production_status h error l f s text :
  request_post prodPath body = (error, VRef l) →
  truthy error = false →
  h !! l = Some (HObj f) →
  f !! "status" = Some (VNum (Int s)) →
  (0 < s)%Z → s ≠ 21007%Z → s ≠ 21002%Z →
  mapped_message s = VStr text →
  run h =
    cb (VError text) (VRef (length h))
      {| store := h ++ [partial_result (VNum (Int s)) (VStr text)];
         status := VNum (Int s); validatedData := VRef (length h);
         isValid := false; requests := [(prodPath, body)] |}.
Proof.
  intros Hp He Hl Hs Hpos H7 H2 Hm.
  unfold validatePurchase, series, tryProd, send.
  rewrite Hp, He. unfold read. cbn [store].
  rewrite (get_prop_obj _ _ _ _ Hl), Hs. cbn [default from_option id].
  unfold eval. cbn [gt_zero strict_eq_int].
  replace (0 <? s)%Z with true by lia.
  replace (s =? 21007)%Z with false by lia.
  replace (s =? 21002)%Z with false by lia.
  cbn [andb negb].
  erewrite status_failed_run by eassumption.
  cbn [truthy]. unfold done. by cbn [truthy validatedData].
Qed.

(** Production: Apple answers with a status that is not positive; the
    payload goes to the response handler and the sandbox is skipped. *)
Lemma run_production_valid h error l f s :
  request_post prodPath body = (error, VRef l) →
  truthy error = false →
  h !! l = Some (HObj f) →
  f !! "status" = Some (VNum (Int s)) →
  (s <= 0)%Z →
  run h =
    handleResponse receipt (VRef l) cb
      {| store := h; status := VUndef; validatedData := VRef l;
         isValid := true; requests := [(prodPath, body)] |}.
Proof.
  intros Hp He Hl Hs Hle.
  unfold validatePurchase, series, tryProd, send.
  rewrite Hp, He. unfold read. cbn [store].
  rewrite (get_prop_obj _ _ _ _ Hl), Hs. cbn [default from_option id].
  unfold eval. cbn [gt_zero strict_eq_int].
  replace (0 <? s)%Z with false by lia.
  replace (s =? 21007)%Z with false by lia.
  replace (s =? 21002)%Z with false by lia.
  cbn [andb negb orb].
  unfold assign_validatedData, assign_isValid. cbn [truthy].
  unfold trySandbox. cbn [isValid truthy]. unfold done. by cbn [truthy validatedData].
Qed.

(** Production answers with a wrong-environment status: the sandbox is
    tried, on the state [sandbox_state]. *)

Lemma run_sandbox h :
  wrong_environment config request_post secret receipt h →
  run h =
    let '(error, data) := request_post sandboxPath body in
    (if truthy error then
       request_failed error data
         (λ error, if truthy error then done receipt cb error
                   else done receipt cb VUndef)
     else
       read data "status" (λ s,
       eval (gt_zero s) (λ positive,
       if positive then
         status_failed s
           (λ error, if truthy error then done receipt cb error
                     else done receipt cb VUndef)
       else assign_validatedData data (done receipt cb VUndef))))
      (sandbox_state config secret receipt h).
Proof.
  intros (error & l & f & s & Hp & He & Hl & Hs & Henv).
  unfold validatePurchase, series, tryProd, send.
  rewrite Hp, He. unfold read. cbn [store].
  rewrite (get_prop_obj _ _ _ _ Hl), Hs. cbn [default from_option id].
  unfold eval. cbn [gt_zero strict_eq_int].
  assert ((s =? 21007)%Z || (s =? 21002)%Z = true) as Hor by (destruct Henv; subst; done).
  assert (negb (s =? 21007)%Z && negb (s =? 21002)%Z = false) as Hand
    by (destruct Henv; subst; done).
  rewrite <- andb_assoc, Hand, andb_false_r, Hor.
  cbn [truthy]. unfold trySandbox, send. cbn [isValid requests app].
  destruct (request_post sandboxPath body) as [e2 d2]. reflexivity.
Qed.

(** Sandbox: the transport reports an error. *)
Lemma run_sandbox_error h error data s m :
  wrong_environment config request_post secret receipt h →
  request_post sandboxPath body = (error, data) →
  truthy error = true →
  failure_status h data = Ok s →
  errorMap_get s = Ok m →
  run h =
    cb error (VRef (length h))
      {| store := h ++ [partial_result s (or_else m "Unknown")];
         status := s; validatedData := VRef (length h);
         isValid := false;
         requests := [(prodPath, body); (sandboxPath, body)] |}.
Proof.
  intros Henv Hp He Hs Hm. rewrite (run_sandbox _ Henv), Hp, He.
  erewrite request_failed_run by eassumption.
  rewrite He. unfold done. cbn [validatedData]. by rewrite He.
Qed.

(** Sandbox: Apple answers with a positive status, whichever it is. *)
Lemma run_sandbox_status h error l f s text :
  wrong_environment config request_post secret receipt h →
  request_post sandboxPath body = (error, VRef l) →
  truthy error = false →
  h !! l = Some (HObj f) →
  f !! "status" = Some (VNum (Int s)) →
  (0 < s)%Z →
  mapped_message s = VStr text →
  run h =
    cb (VError text) (VRef (length h))
      {| store := h ++ [partial_result (VNum (Int s)) (VStr text)];
         status := VNum (Int s); validatedData := VRef (length h);
         isValid := false;
         requests := [(prodPath, body); (sandboxPath, body)] |}.
Proof.
  intros Henv Hp He Hl Hs Hpos Hm. rewrite (run_sandbox _ Henv), Hp, He.
  unfold read. cbn [store sandbox_state].
  rewrite (get_prop_obj _ _ _ _ Hl), Hs. cbn [default from_option id].
  unfold eval. cbn [gt_zero]. replace (0 <? s)%Z with true by lia.
  erewrite status_failed_run by eassumption.
  cbn [truthy]. unfold done. by cbn [truthy validatedData].
Qed.

(** Sandbox: Apple answers with a status that is not positive. *)
Lemma run_sandbox_valid h error l f s :
  wrong_environment config request_post secret receipt h →
  request_post sandboxPath body = (error, VRef l) →
  truthy error = false →
  h !! l = Some (HObj f) →
  f !! "status" = Some (VNum (Int s)) →
  (s <= 0)%Z →
  run h =
    handleResponse receipt (VRef l) cb
      {| store := h; status := VUndef; validatedData := VRef l;
         isValid := false;
         requests := [(prodPath, body); (sandboxPath, body)] |}.
Proof.
  intros Henv Hp He Hl Hs Hle. rewrite (run_sandbox _ Henv), Hp, He.
  unfold read. cbn [store sandbox_state].
  rewrite (get_prop_obj _ _ _ _ Hl), Hs. cbn [default from_option id].
  unfold eval. cbn [gt_zero]. replace (0 <? s)%Z with false by lia.
  unfold assign_validatedData, done. by cbn [truthy validatedData].
Qed.
End runs.

(** ** What a run leaves behind *)

Lemma keeps_log_Called error data : keeps_log (Called error data).
Proof. by intros st. Qed.

Lemma keeps_log_read v k cont :
  (∀ x, keeps_log (cont x)) → keeps_log (read v k cont).
Proof. intros H st. unfold read. destruct (get_prop _ _ _); [apply H|done]. Qed.

Lemma keeps_log_write v k x cont : keeps_log cont → keeps_log (write v k x cont).
Proof.
  intros H st. unfold write. destruct (set_prop _ _ _ _); [|done].
  by rewrite H.
Qed.

Lemma keeps_log_new o cont : (∀ x, keeps_log (cont x)) → keeps_log (new o cont).
Proof. intros H st. unfold new, alloc. by rewrite H. Qed.

Lemma keeps_log_eval {A} (r : res A) cont :
  (∀ x, keeps_log (cont x)) → keeps_log (eval r cont).
Proof. intros H st. unfold eval. destruct r; [apply H|done]. Qed.

Lemma keeps_log_assign_status v cont : keeps_log cont → keeps_log (assign_status v cont).
Proof. intros H st. unfold assign_status. by rewrite H. Qed.

Lemma keeps_log_assign_validatedData v cont :
  keeps_log cont → keeps_log (assign_validatedData v cont).
Proof. intros H st. unfold assign_validatedData. by rewrite H. Qed.

Lemma keeps_log_if (b : bool) p q : keeps_log p → keeps_log q → keeps_log (if b then p else q).
Proof. by destruct b. Qed.

Create HintDb log.

#[local] Hint Resolve keeps_log_Called keeps_log_read keeps_log_write keeps_log_new
  keeps_log_eval keeps_log_assign_status keeps_log_assign_validatedData
  keeps_log_if : log.

Lemma keeps_log_handleResponse receipt data :
  keeps_log (handleResponse receipt data Called).
Proof. unfold handleResponse. auto 20 with log. Qed.

Lemma keeps_log_done receipt error : keeps_log (done receipt Called error).
Proof.
  intros st. unfold done. destruct (truthy error); [done|].
  apply keeps_log_handleResponse.
Qed.

Lemma keeps_log_request_failed error data next :
  (∀ e, keeps_log (next e)) → keeps_log (request_failed error data next).
Proof.
  intros H. unfold request_failed.
  destruct (truthy data); auto 20 with log.
Qed.

Lemma keeps_log_status_failed s next :
  (∀ e, keeps_log (next e)) → keeps_log (status_failed s next).
Proof. intros H. unfold status_failed. auto 20 with log. Qed.

(** Once Production has named the wrong environment, the log of the run is
    the production request followed by one sandbox request, whatever the
    sandbox answers. *)
Lemma sandbox_log config request_post secret receipt h :
  wrong_environment config request_post secret receipt h →
  requests (final (validatePurchase config request_post secret receipt Called h)) =
    [(prodPath, content config secret receipt);
     (sandboxPath, content config secret receipt)].
Proof.
  intros Henv. rewrite (run_sandbox _ _ _ _ _ _ Henv).
  destruct (request_post _ _) as [error data].
  assert (∀ e, keeps_log (λ st,
    (if truthy e then done receipt Called e else done receipt Called VUndef) st)) as Hnext.
  { intros e st. destruct (truthy e); apply keeps_log_done. }
  match goal with |- requests (final (?p ?st)) = _ => assert (keeps_log p) as Hp end.
  { apply keeps_log_if.
    - by apply keeps_log_request_failed.
    - apply keeps_log_read; intros s. apply keeps_log_eval; intros b.
      apply keeps_log_if.
      + by apply keeps_log_status_failed.
      + apply keeps_log_assign_validatedData. intros st. apply keeps_log_done. }
  by rewrite Hp.
Qed.

(** ** Dispatch on the production status *)

(** C1, amended: when Production answers 21007 or 21002 exactly one sandbox
    request is made; when it answers any other positive status no sandbox
    request is made and the run fails with an error carrying the message
    mapped to that status, which for 21003 reads "The receipt could not be
    authenticated.". *)
Theorem positive_status_dispatch config request_post secret receipt h :
  status_dispatch (λ s, 0 < s)%Z config request_post secret receipt h ∧
  mapped_message 21003 = VStr "The receipt could not be authenticated.".
Proof.
  split; [|reflexivity].
  intros s (error & l & f & Hp & He & Hl & Hs) o. split.
  - intros Henv. unfold sandbox_attempts, o.
    rewrite sandbox_log by (by exists error, l, f, s).
    reflexivity.
  - intros Hpos H7 H2.
    destruct (mapped_message_string s) as [text Hm].
    unfold o. erewrite run_production_status by eassumption.
    split; [reflexivity|].
    exists text, (length h). eexists. split_and!; [done..|].
    cbn [store]. by rewrite lookup_app_r, Nat.sub_diag.
Qed.

(** C1 as stated fails: a negative status is nonzero and is neither 21007
    nor 21002, yet the run ends in the response handler's error and not in
    an error that carries the mapped message. *)
Lemma negative_status_not_dispatched :
  ¬ status_dispatch (λ s, s ≠ 0)%Z None (λ _ _, (VNull, VRef 0)) VUndef
      (VStr "receipt") [HObj {[ "status" := VNum (Int (-1)) ]}].
Proof.
  intros H. destruct (H (-1)%Z) as [_ H'].
  { by exists VNull, 0%nat, {[ "status" := VNum (Int (-1)) ]}. }
  destruct H' as [_ (text & l & st & _ & Ho & Hst)]; [done..|].
  erewrite run_production_valid in Ho; [|done..].
  erewrite handleResponse_run in Ho; [|done..].
  cbn in Ho. injection Ho as <- <- <-. cbn in Hst.
  apply (f_equal (λ o, match o with
                       | Some (HObj m) => m !! "service"
                       | _ => None
                       end)) in Hst.
  vm_compute in Hst. discriminate.
Qed.

(** ** Success on Production *)

Lemma production_valid_log config request_post secret receipt h s :
  production_answers config request_post secret receipt h s →
  (s <= 0)%Z →
  requests (final (validatePurchase config request_post secret receipt Called h)) =
    [(prodPath, content config secret receipt)].
Proof.
  intros (error & l & f & Hp & He & Hl & Hs) Hle.
  erewrite run_production_valid by eassumption.
  by rewrite keeps_log_handleResponse.
Qed.

(** C4, amended: if Production answers status 0, no request goes to the
    sandbox, whatever the sandbox would answer; and the result is the
    success carrying the Production response itself unless the response's
    in-app list is present and empty. *)
Theorem production_success_skips_sandbox config request_post secret receipt h :
  (production_answers config request_post secret receipt h 0 →
   sandbox_attempts (validatePurchase config request_post secret receipt Called h) = 0) ∧
  production_success (λ h data, empty_purchase h data = Ok false)
    config request_post secret receipt h.
Proof.
  split.
  - intros Hp. unfold sandbox_attempts.
    by rewrite (production_valid_log _ _ _ _ _ _ Hp).
  - intros error l f Hp He Hl Hs Hsound o. split.
    + unfold sandbox_attempts, o.
      rewrite (production_valid_log _ _ _ _ _ 0%Z); [done| |done].
      by exists error, l, f.
    + unfold o. erewrite run_production_valid by (eassumption || done).
      erewrite handleResponse_run by (eassumption || done).
      cbn [store Z.eqb constants.VALIDATION_SUCCESS]. rewrite Hsound.
      by eexists.
Qed.

(** C4 as stated fails: Production answers status 0 with an empty in-app
    list, and the run does not succeed. *)
Lemma empty_in_app_is_not_success :
  ¬ production_success (λ _ _, True) None (λ _ _, (VNull, VRef 0)) VUndef
      (VStr "receipt")
      [HObj {[ "status" := VNum (Int 0); "receipt" := VRef 1 ]};
       HObj {[ "in_app" := VRef 2 ]};
       HArr []].
Proof.
  intros H. edestruct H as [_ (st & Ho & _)]; [done..|].
  vm_compute in Ho. discriminate.
Qed.

(** ** The empty purchase list *)

Lemma in_app_empty_purchase h l : in_app_empty h l → empty_purchase h (VRef l) = Ok true.
Proof.
  intros (f & lr & fr & la & Hl & Hr & Hlr & Hia & Hla).
  unfold empty_purchase.
  rewrite (get_prop_obj _ _ _ _ Hl), Hr. cbn [default from_option id mbind res_bind].
  rewrite (get_prop_obj _ _ _ _ Hlr), Hia. cbn [default from_option id mbind res_bind truthy].
  cbn [get_prop]. by rewrite Hla.
Qed.

(** C3: when Apple reports the success status and the payload's receipt has
    the in-app list key with an empty list, the run does not succeed: the
    callback receives the error "failed to validate for empty purchased
    list" and the payload, whose status is now the possible-hack code 2
    with the message mapped to it. *)
Theorem empty_purchase_list_rejected config request_post secret receipt h l :
  reports_success config request_post secret receipt h l →
  in_app_empty h l →
  ∃ st g,
    validatePurchase config request_post secret receipt Called h =
      Called (VError "failed to validate for empty purchased list") (VRef l) st ∧
    store st !! l = Some (HObj g) ∧
    g !! "status" = Some (VNum (Int constants.VALIDATION_POSSIBLE_HACK)) ∧
    g !! "message" = Some (mapped_message constants.VALIDATION_POSSIBLE_HACK) ∧
    mapped_message constants.VALIDATION_POSSIBLE_HACK =
      VStr "The receipt is valid, but purchased nothing." ∧
    g !! "service" = Some constants.SERVICES_APPLE.
Proof.
  intros (error & f & Hp & He & Hl & Hs) Hempty.
  pose proof (in_app_empty_purchase _ _ Hempty) as Hep.
  pose proof (lookup_lt_Some _ _ _ Hl) as Hlt.
  assert (∃ st, validatePurchase config request_post secret receipt Called h =
                  handleResponse receipt (VRef l) Called st ∧ store st = h)
    as (st & -> & Hst).
  { destruct Hp as [Hp|[Henv Hp]].
    - eexists. split; [by eapply run_production_valid|done].
    - eexists. split; [by eapply run_sandbox_valid|done]. }
  erewrite handleResponse_run; [|by rewrite Hst|done].
  rewrite Z.eqb_refl, Hst, Hep.
  eexists _, (downgraded f). split; [reflexivity|].
  cbn [store set_store]. rewrite list_lookup_insert_eq by done.
  unfold downgraded, tagged.
  split_and!; try reflexivity; by simplify_map_eq.
Qed.

(** ** Transport failures *)

(** C8, amended: a transport error, on the Production or on the sandbox
    attempt, ends the run with that error and a partial result whose status
    is the status of the body that came with the error, or 1 when no body
    came, and whose message is looked up under that status or "Unknown"
    (which it is for status 1); a transport failure on Production is not
    followed by a sandbox request. *)
Theorem transport_failure_result config request_post secret receipt h :
  transport_failure classified config request_post secret receipt h ∧
  (∀ data, truthy data = false →
     classified h data (VNum (Int 1)) (VStr "Unknown")).
Proof.
  split.
  - intros [|] error data s m [He Hp] (Hs & m' & Hm & ->) o; unfold o.
    + erewrite run_production_error by eassumption.
      split; [|done]. eexists _, _. split; [reflexivity|].
      cbn [store]. by rewrite lookup_app_r, Nat.sub_diag.
    + destruct Hp as [Henv Hp].
      erewrite run_sandbox_error by eassumption.
      split; [|done]. eexists _, _. split; [reflexivity|].
      cbn [store]. by rewrite lookup_app_r, Nat.sub_diag.
  - intros data Hd. split.
    + unfold failure_status. by rewrite Hd.
    + by exists VUndef.
Qed.

(** C8 as stated fails: when a body comes with the transport error, the
    partial result takes the body's status, not 1. *)
Lemma failure_status_from_body :
  ¬ transport_failure (λ _ _ s m, s = VNum (Int 1) ∧ m = VStr "Unknown") None
      (λ _ _, (VStr "ETIMEDOUT", VRef 0)) VUndef (VStr "receipt")
      [HObj {[ "status" := VNum (Int 21005) ]}].
Proof.
  intros H.
  destruct (H true (VStr "ETIMEDOUT") (VRef 0) (VNum (Int 1)) (VStr "Unknown"))
    as [(l & st & Ho & Hst) _]; [done..|].
  vm_compute in Ho. injection Ho as <- <-.
  vm_compute in Hst. discriminate.
Qed.

(** ** The frame of the response handler *)



(** ** Rendering of undocumented statuses *)

(** C5, at the input where the code departs from it: Production answers
    the undocumented status -1; the table lookup with its fallback gives
    "Unknown", and the message that the run renders on the payload is
    "Unkown". *)
Theorem undocumented_status_misspelt :
  ((-1)%Z ∉ documented) ∧
  mapped_message (-1) = VStr "Unknown" ∧
  ∃ st g,
    validatePurchase None (λ _ _, (VNull, VRef 0)) VUndef (VStr "receipt") Called
      [HObj {[ "status" := VNum (Int (-1)) ]}] =
      Called (VError "failed to validate purchase") (VRef 0) st ∧
    store st !! 0%nat = Some (HObj g) ∧
    g !! "message" = Some (VStr "Unkown").
Proof.
  split; [unfold documented; not_listed|]. split; [reflexivity|].
  erewrite run_production_valid; [|done..].
  erewrite handleResponse_run; [|done..].
  eexists _, _. split; [reflexivity|]. split; [reflexivity|].
  reflexivity.
Qed.

(** ** Failure paths *)





(** ** The legacy receipt *)

(** What the code does on a legacy payload: one record, whose fields come
    from the receipt, except that the expiry rule is applied to the payload
    [purchase] itself (line 234); [options] is not consulted. *)
Lemma legacy_single_record now h purchase options fr q exp :
  legacy_payload h purchase fr →
  parseInt (default VUndef (fr !! "quantity")) = Ok q →
  getSubscriptionExpireDate h purchase = Ok exp →
  getPurchaseData now h purchase options =
    Ok (Some [Some {| bundleId := default VUndef (fr !! REC_KEYS.BUNDLE_ID);
                      transactionId := default VUndef (fr !! REC_KEYS.TRANSACTION_ID);
                      productId := default VUndef (fr !! REC_KEYS.PRODUCT_ID);
                      purchaseDate :=
                        default VUndef (fr !! REC_KEYS.ORIGINAL_PURCHASE_DATE_MS);
                      quantity := q;
                      expirationDate := exp |}]).
Proof.
  intros (lp & fp & lr & -> & Hlp & Hr & Hlr & Hia) Hq Hexp.
  unfold getPurchaseData. cbn [truthy negb].
  rewrite (get_prop_obj _ _ _ _ Hlp), Hr.
  cbn [default from_option id mbind res_bind truthy negb].
  rewrite !(get_prop_obj _ _ _ _ Hlr).
  cbn [mbind res_bind]. rewrite Hia.
  cbn [mbind res_bind]. rewrite Hq. cbn [mbind res_bind]. rewrite Hexp.
  reflexivity.
Qed.

(** C7, at the input where the code departs from it: the receipt is a
    legacy one with quantity "2" and expires_date_ms "5000".  The code
    returns exactly one record, with quantity 2, with or without
    ignoreExpired; its expiration date is 0 and not 5000, because the
    fallback rule is applied to the payload and not to the receipt whose
    fields make up the rest of the record. *)
Theorem legacy_expiry_read_from_payload now :
  let record := {| bundleId := VStr "com.x"; transactionId := VStr "1";
                   productId := VStr "p1"; purchaseDate := VUndef;
                   quantity := Int 2; expirationDate := Int 0 |} in
  getPurchaseData now legacy_example (VRef 0) VUndef = Ok (Some [Some record]) ∧
  getPurchaseData now legacy_example (VRef 0) (VRef 2) = Ok (Some [Some record]) ∧
  getSubscriptionExpireDate legacy_example (VRef 1) = Ok (Int 5000) ∧
  getSubscriptionExpireDate legacy_example (VRef 0) = Ok (Int 0).
Proof. cbv zeta. split_and!; vm_compute; reflexivity. Qed.

(** ** Duplicates of an original transaction *)

(** The spec's example: two items of one original transaction, the later
    one newer.  One record is left, the newer one, in the first slot. *)
Example newer_duplicate_replaces now :
  getPurchaseData now
    (modern_example [purchase_item "T1" "a" "100"; purchase_item "T1" "b" "200"])
    (VRef 0) VUndef =
  Ok (Some [Some (purchase_record "b")]).
Proof. vm_compute. reflexivity. Qed.

(** C2, at the inputs where the code departs from it.  Three items of the
    original transaction T1 with purchase dates 100, 200 and 300 leave two
    records of T1, and the latest is not in the slot where T1 was first
    seen: line 215 has moved the index kept for T1 off that slot.  Two
    items of T1 with purchase dates 200 and 100 leave two records as well,
    and the entry kept for T1, which was the newer one, is overwritten by
    the older. *)
Theorem duplicates_survive now :
  getPurchaseData now
    (modern_example [purchase_item "T1" "a" "100"; purchase_item "T1" "b" "200";
                     purchase_item "T1" "c" "300"])
    (VRef 0) VUndef =
    Ok (Some [Some (purchase_record "b"); Some (purchase_record "c")]) ∧
  let h := modern_example [purchase_item "T1" "a" "200";
                           purchase_item "T1" "b" "100"] in
  getPurchaseData now h (VRef 0) VUndef =
    Ok (Some [Some (purchase_record "a"); Some (purchase_record "b")]) ∧
  loop now h (VRef 0) VUndef (∅, []) [VRef 3] =
    Ok ({[ "T1" := {| time := Int 200; index := 0 |} ]},
        [Some (purchase_record "a")]) ∧
  loop now h (VRef 0) VUndef (∅, []) [VRef 3; VRef 4] =
    Ok ({[ "T1" := {| time := Int 100; index := 1 |} ]},
        [Some (purchase_record "a"); Some (purchase_record "b")]).
Proof. cbv zeta. split_and!; vm_compute; reflexivity. Qed.

(** ** The loop on well-formed items *)

Lemma flat_ToString f k : flat f → ToString (default VUndef (f !! k)) = Ok (string_of (default VUndef (f !! k))).
Proof.
  intros Hf. unfold string_of.
  destruct (f !! k) as [v|] eqn:Hk; [|done].
  destruct v as [| |[]|[]| | |]; try done. by apply Hf in Hk.
Qed.

Lemma flat_parseInt f k : flat f → parseInt (default VUndef (f !! k)) = Ok (number_of (default VUndef (f !! k))).
Proof.
  intros Hf. unfold number_of, parseInt. by rewrite flat_ToString.
Qed.

Lemma flat_expiry h l f :
  h !! l = Some (HObj f) → flat f →
  getSubscriptionExpireDate h (VRef l) = Ok (expiry_of f).
Proof.
  intros Hl Hf. unfold getSubscriptionExpireDate, expiry_of.
  rewrite !(get_prop_obj _ _ _ _ Hl). cbn [mbind res_bind].
  destruct (truthy _); [by apply flat_parseInt|].
  cbn [mbind res_bind]. destruct (truthy _); [by apply flat_parseInt|done].
Qed.

Section refinement.
Variable now : Z.
Variable h : heap.
Variables purchase options : value.
Variable fr : gmap string value.
Variable ign : bool.
Hypothesis Hreceipt : receipt_object h purchase fr.
Hypothesis Hign : ignoreExpired h options = Ok ign.

Local Abbreviation bundle := (default VUndef (fr !! REC_KEYS.BUNDLE_ID)).

Lemma item_record_view item :
  well_formed_item h item →
  item_record h purchase item (expiry (view h bundle item)) =
    Ok (record (view h bundle item)).
Proof.
  intros (l & f & -> & Hl & Hf).
  destruct Hreceipt as (lp & fp & lr & -> & Hlp & Hr & Hlr).
  unfold item_record, view. rewrite Hl.
  rewrite (get_prop_obj _ _ _ _ Hlp), Hr. cbn [default from_option id mbind res_bind].
  rewrite (get_prop_obj _ _ _ _ Hlr). cbn [mbind res_bind].
  rewrite !(get_prop_obj _ _ _ _ Hl). cbn [mbind res_bind].
  rewrite (flat_parseInt f "quantity" Hf). reflexivity.
Qed.

Lemma loop_body_step st item :
  well_formed_item h item →
  loop_body now h purchase options st item =
    Ok (step ign now st (view h bundle item)).
Proof.
  intros Hitem. pose proof (item_record_view item Hitem) as Hrec.
  destruct Hitem as (l & f & -> & Hl & Hf).
  destruct st as [tids data]. unfold loop_body, step, skipped.
  rewrite !(get_prop_obj _ _ _ _ Hl). cbn [mbind res_bind].
  rewrite (flat_parseInt _ _ Hf). cbn [mbind res_bind].
  rewrite (flat_expiry _ _ _ Hl Hf). cbn [mbind res_bind].
  rewrite Hign. cbn [mbind res_bind].
  unfold view in *. rewrite Hl in *. cbn [expiry entry_of] in *.
  destruct (ign && _ && _); [done|].
  rewrite (flat_ToString _ _ Hf). cbn [mbind res_bind].
  rewrite Hrec. reflexivity.
Qed.

Lemma loop_steps items st :
  Forall (well_formed_item h) items →
  loop now h purchase options st items =
    Ok (foldl (step ign now) st (view h bundle <$> items)).
Proof.
  intros Hitems. revert st. induction Hitems as [|item items Hitem _ IH]; intros st.
  - reflexivity.
  - cbn [loop]. rewrite (loop_body_step _ _ Hitem). cbn [mbind res_bind].
    by rewrite IH.
Qed.
End refinement.

(** ** The expiry filter *)


Lemma array_set_elem {A} (data : list (option A)) i x : Some x ∈ array_set data i x.
Proof.
  unfold array_set. case_decide.
  - by apply list_elem_of_insert.
  - rewrite !elem_of_app, list_elem_of_singleton. auto.
Qed.

Lemma array_set_end {A} (data : list (option A)) x :
  array_set data (length data) x = data ++ [Some x].
Proof.
  unfold array_set. case_decide; [lia|]. by rewrite Nat.sub_diag.
Qed.

Section steps.
Variable ign : bool.
Variable now : Z.

Local Abbreviation state := (gmap string tid_entry * list (option PurchaseRecord))%type.




Lemma step_dated seen (st : state) e :
  dated seen st → dated (seen ++ [e]) (step ign now st e).
Proof.
  intros Hst k t. unfold step. destruct (skipped ign now e).
  - intros Hk. destruct (Hst k t Hk) as (q & Hq & ?). exists q.
    rewrite elem_of_app. auto.
  - cbn [fst]. destruct (decide (key e = k)) as [<-|Hne].
    + rewrite lookup_insert_eq. intros [= <-]. exists e.
      rewrite elem_of_app, list_elem_of_singleton. auto.
    + rewrite lookup_insert_ne by done. intros Hk.
      destruct (Hst k t Hk) as (q & Hq & ?). exists q.
      rewrite elem_of_app. auto.
Qed.

Lemma steps_dated es : ∀ seen (st : state),
  dated seen st → dated (seen ++ es) (foldl (step ign now) st es).
Proof.
  induction es as [|e es IH]; intros seen st Hst; cbn [foldl].
  - by rewrite app_nil_r.
  - replace (seen ++ e :: es) with ((seen ++ [e]) ++ es)
      by (by rewrite <- app_assoc).
    apply IH. by apply step_dated.
Qed.

End steps.



Lemma tid_key_view h bundle item :
  well_formed_item h item → tid_key h item = Ok (key (view h bundle item)).
Proof.
  intros (l & f & -> & Hl & Hf). unfold tid_key, view.
  rewrite (get_prop_obj _ _ _ _ Hl), Hl. cbn [mbind res_bind].
  by rewrite flat_ToString.
Qed.

Lemma purchase_date_view h bundle item :
  well_formed_item h item →
  purchase_date h item = Ok (pdate (view h bundle item)).
Proof.
  intros (l & f & -> & Hl & Hf). unfold purchase_date, view.
  rewrite (get_prop_obj _ _ _ _ Hl), Hl. cbn [mbind res_bind].
  by rewrite flat_parseInt.
Qed.

Lemma none_replaces_entries h bundle post : ∀ before,
  Forall (well_formed_item h) before →
  Forall (well_formed_item h) post →
  none_replaces h before post →
  no_replacement (view h bundle <$> before) (view h bundle <$> post).
Proof.
  induction post as [|p post IH]; intros before Hbefore Hpost Hnone; [done|].
  apply Forall_cons in Hpost as [Hp Hpost]. destruct Hnone as [Hold Hnone].
  cbn [fmap list_fmap no_replacement]. split.
  - intros e Hin Hkey. apply list_elem_of_fmap in Hin as (q & -> & Hq).
    pose proof (proj1 (Forall_forall _ _) Hbefore q Hq) as Hwq.
    apply (Hold q _ _ Hq).
    + rewrite (tid_key_view _ bundle q Hwq), (tid_key_view _ bundle p Hp).
      by rewrite Hkey.
    + by apply purchase_date_view.
    + by apply purchase_date_view.
  - specialize (IH (before ++ [p])). rewrite fmap_app in IH.
    apply IH; [|done..]. apply Forall_app. by split; [|apply Forall_singleton].
Qed.

Lemma modern_run now h purchase options items fr ign :
  receipt_object h purchase fr →
  truthy (default VUndef (fr !! REC_KEYS.IN_APP)) = true →
  working_list h purchase (default VUndef (fr !! REC_KEYS.IN_APP)) = Ok items →
  Forall (well_formed_item h) items →
  ignoreExpired h options = Ok ign →
  getPurchaseData now h purchase options =
    Ok (Some (foldl (step ign now) (∅, [])
                (view h (default VUndef (fr !! REC_KEYS.BUNDLE_ID)) <$> items)).2).
Proof.
  intros Hrec Hia Hwl Hwf Hign.
  pose proof (loop_steps now h purchase options fr ign Hrec Hign items (∅, []) Hwf) as Hloop.
  destruct Hrec as (lp & fp & lr & -> & Hlp & Hr & Hlr).
  unfold getPurchaseData. cbn [truthy negb].
  rewrite (get_prop_obj _ _ _ _ Hlp), Hr.
  cbn [default from_option id mbind res_bind truthy negb].
  rewrite (get_prop_obj _ _ _ REC_KEYS.IN_APP Hlr). cbn [mbind res_bind].
  rewrite Hia, Hwl. cbn [mbind res_bind]. rewrite Hloop. reflexivity.
Qed.


Lemma renewal_example_modern : modern_payload renewal_example (VRef 0) [VRef 3; VRef 4].
Proof.
  exists {[ "bundle_id" := VStr "com.x"; "in_app" := VRef 2 ]}. split_and!.
  - by exists 0%nat, {[ "status" := VNum (Int 0); "receipt" := VRef 1 ]}, 1%nat.
  - reflexivity.
  - reflexivity.
  - repeat apply Forall_cons_2; [| |apply Forall_nil_2];
      (eexists _, _; split_and!; [reflexivity..|]);
      apply (bool_decide_unpack _); vm_compute; exact I.
Defined.


(** * The theorems at concrete inputs *)

(** Production answers 21003: no sandbox request, and the error carries the
    message of 21003. *)
Lemma positive_status_dispatch_witness :
  let o := validatePurchase None (λ _ _, (VNull, VRef 0)) VUndef (VStr "receipt")
             Called (status_only 21003) in
  sandbox_attempts o = 0 ∧ apple_status_error 21003 o.
Proof.
  assert (production_answers None (λ _ _, (VNull, VRef 0)) VUndef (VStr "receipt")
            (status_only 21003) 21003) as Hp
    by (exists VNull, 0%nat, {[ "status" := VNum (Int 21003) ]};
        split_and!; reflexivity).
  apply (proj1 (positive_status_dispatch None (λ _ _, (VNull, VRef 0)) VUndef
                  (VStr "receipt") (status_only 21003)) 21003%Z Hp); lia.
Defined.

(** Production answers status 0 with an empty in-app list. *)
Lemma empty_purchase_list_rejected_witness :
  ∃ st g,
    validatePurchase None (λ _ _, (VNull, VRef 0)) VUndef (VStr "receipt") Called
      empty_in_app_example =
      Called (VError "failed to validate for empty purchased list") (VRef 0) st ∧
    store st !! 0%nat = Some (HObj g) ∧
    g !! "status" = Some (VNum (Int constants.VALIDATION_POSSIBLE_HACK)) ∧
    g !! "message" = Some (mapped_message constants.VALIDATION_POSSIBLE_HACK) ∧
    mapped_message constants.VALIDATION_POSSIBLE_HACK =
      VStr "The receipt is valid, but purchased nothing." ∧
    g !! "service" = Some constants.SERVICES_APPLE.
Proof.
  apply (empty_purchase_list_rejected None (λ _ _, (VNull, VRef 0)) VUndef
           (VStr "receipt") empty_in_app_example 0).
  - exists VNull, {[ "status" := VNum (Int 0); "receipt" := VRef 1 ]}.
    split_and!; [left|..]; reflexivity.
  - exists {[ "status" := VNum (Int 0); "receipt" := VRef 1 ]}, 1%nat,
      {[ "in_app" := VRef 2 ]}, 2%nat.
    split_and!; reflexivity.
Defined.

(** Production answers status 0 with one purchase. *)
Lemma production_success_skips_sandbox_witness :
  let h := modern_example [purchase_item "T1" "a" "100"] in
  let o := validatePurchase None (λ _ _, (VNull, VRef 0)) VUndef (VStr "receipt")
             Called h in
  sandbox_attempts o = 0 ∧
  ∃ st, o = Called VNull (VRef 0) st ∧
        store st =
          <[0%nat := HObj (tagged {[ "status" := VNum (Int 0); "receipt" := VRef 1 ]})]> h.
Proof.
  intros h.
  apply (proj2 (production_success_skips_sandbox None (λ _ _, (VNull, VRef 0))
                  VUndef (VStr "receipt") h)
           VNull 0%nat {[ "status" := VNum (Int 0); "receipt" := VRef 1 ]});
    reflexivity.
Defined.


(** The transport times out on Production, without a body. *)
Lemma transport_failure_result_witness :
  let o := validatePurchase None (λ _ _, (VStr "ETIMEDOUT", VUndef)) VUndef
             (VStr "receipt") Called [] in
  failed_with (VStr "ETIMEDOUT") (VNum (Int 1)) (VStr "Unknown") o ∧
  (true = true → sandbox_attempts o = 0).
Proof.
  apply (proj1 (transport_failure_result None (λ _ _, (VStr "ETIMEDOUT", VUndef))
                  VUndef (VStr "receipt") [])
           true (VStr "ETIMEDOUT") VUndef (VNum (Int 1)) (VStr "Unknown")).
  - split; reflexivity.
  - split; [reflexivity|]. exists VUndef. split; reflexivity.
Defined.



(** * Further properties of the module *)

(** ** Configuration *)

Lemma copy_apple_keys_spec f :
  (∀ k, (copy_apple_keys f).1 !! k = if isValidConfigKey k then f !! k else None) ∧
  ((copy_apple_keys f).2 = false ↔ ∀ k, isValidConfigKey k = true → f !! k = None).
Proof.
  unfold copy_apple_keys.
  apply (map_fold_weak_ind (λ r m,
    (∀ k, r.1 !! k = if isValidConfigKey k then m !! k else None) ∧
    (r.2 = false ↔ ∀ k, isValidConfigKey k = true → m !! k = None))).
  - split.
    + intros k. rewrite !lookup_empty. by destruct (isValidConfigKey k).
    + split; [intros _ k _; apply lookup_empty|done].
  - intros i x m r Hi [Hkeys Hset]. destruct (isValidConfigKey i) eqn:Hvalid.
    + cbn [fst snd]. split.
      * intros k. destruct (decide (i = k)) as [<-|Hne].
        -- by rewrite !lookup_insert_eq, Hvalid.
        -- rewrite !lookup_insert_ne by done. apply Hkeys.
      * split; [done|]. intros Hnone. specialize (Hnone i Hvalid).
        by rewrite lookup_insert_eq in Hnone.
    + split.
      * intros k. destruct (decide (i = k)) as [<-|Hne].
        -- rewrite Hkeys, Hvalid. done.
        -- rewrite lookup_insert_ne by done. apply Hkeys.
      * rewrite Hset. split; intros Hnone k Hk.
        -- rewrite lookup_insert_ne; [by apply Hnone|]. intros ->. congruence.
        -- specialize (Hnone k Hk). rewrite lookup_insert_ne in Hnone; [done|].
           intros ->. congruence.
Qed.

(** X1: [readConfig] on an object replaces [config] by the entries of the
    object whose key starts with "apple", and by [null] when there is none;
    the former [config] is not merged in.  A requestDefaults entry, even
    though it is not copied, is laid over the transport.  On a falsy
    argument nothing changes. *)
Theorem readConfig_keeps_apple_keys h m :
  (∀ l f, h !! l = Some (HObj f) →
     ∃ m', readConfig h (VRef l) m = Ok m' ∧
       (∀ k, configured (config m') k = if isValidConfigKey k then f !! k else None) ∧
       (config m' = None ↔ ∀ k, isValidConfigKey k = true → f !! k = None) ∧
       request m' = match f !! "requestDefaults" with
                    | Some defaults => defaults :: request m
                    | None => request m
                    end) ∧
  (∀ configIn, truthy configIn = false → readConfig h configIn m = Ok m).
Proof.
  split.
  - intros l f Hl. unfold readConfig. cbn [truthy negb]. rewrite Hl.
    destruct (copy_apple_keys_spec f) as [Hkeys Hset].
    destruct (copy_apple_keys f) as [c [|]] eqn:Hcopy; cbn [fst snd] in *.
    + eexists. split; [reflexivity|]. cbn [config request configured].
      split_and!; [done| |done].
      split; [done|]. intros Hnone. by apply Hset in Hnone.
    + eexists. split; [reflexivity|]. cbn [config request configured].
      pose proof (proj1 Hset eq_refl) as Hnone.
      split_and!; [|by split|done].
      intros k. destruct (isValidConfigKey k) eqn:Hk; [|done].
      symmetry. by apply Hnone.
  - intros configIn Hfalsy. unfold readConfig. by rewrite Hfalsy.
Qed.

Lemma setup_applePassword env m :
  applePassword (config (setup env m)) =
    if truthy (applePassword (config m)) then applePassword (config m)
    else if truthy env then env else applePassword (config m).
Proof.
  unfold setup.
  destruct (truthy (applePassword (config m))) eqn:Hp; cbn [negb]; [done|].
  destruct (truthy env) eqn:He; [|done].
  cbn [config applePassword]. by rewrite lookup_insert_eq.
Qed.

(** X2: [setup] takes the password from the environment only when none is
    configured, never replaces a configured one, leaves every other entry
    and the transport as they are, and a second call changes nothing. *)
Theorem setup_password_fallback env m :
  applePassword (config (setup env m)) =
    (if truthy (applePassword (config m)) then applePassword (config m)
     else if truthy env then env else applePassword (config m)) ∧
  (∀ k, k ≠ "applePassword" →
     configured (config (setup env m)) k = configured (config m) k) ∧
  request (setup env m) = request m ∧
  setup env (setup env m) = setup env m.
Proof.
  unfold setup.
  destruct (truthy (applePassword (config m))) eqn:Hp; cbn [negb].
  - rewrite Hp. by cbn [negb].
  - destruct (truthy env) eqn:He.
    + cbn [config request applePassword configured].
      rewrite lookup_insert_eq. cbn [default from_option id]. rewrite He.
      cbn [negb]. split_and!; [done| |done|done].
      intros k Hk. rewrite lookup_insert_ne by done.
      destruct (config m); [done|]. cbn [default from_option id configured].
      apply lookup_empty.
    + split_and!; [done..|]. by destruct (negb _).
Qed.

(** X3: the body of every request holds the receipt under "receipt-data",
    and as its password the first that is not falsy of the secret of the
    call, the configured password and the password of the environment that
    [setup] has taken up; it has no password when all three are falsy, and
    no other entry. *)
Theorem request_body_password env m secret receipt :
  let body := content (config (setup env m)) secret receipt in
  body !! "receipt-data" = Some receipt ∧
  body !! "password" = first_truthy [secret; applePassword (config m); env] ∧
  (∀ k, k ≠ "receipt-data" → k ≠ "password" → body !! k = None).
Proof.
  pose proof (setup_applePassword env m) as Hp.
  intros body. unfold body, content. rewrite Hp. cbn [first_truthy].
  destruct (truthy secret) eqn:Hs, (truthy (applePassword (config m))) eqn:Hc;
    rewrite ?Hc; try destruct (truthy env) eqn:He; rewrite ?He, ?Hc;
    (split_and!; [by simplify_map_eq..|]);
    intros k H1 H2; by simplify_map_eq.
Qed.

(** ** The requests of a run *)

Section logs.
Variable allowed : list (string * gmap string value) → Prop.
Hypothesis allowed_nil : allowed [].

Lemma extends_log_abort e st : ∃ more,
  requests (final (Aborted e st)) = requests st ++ more ∧ allowed more.
Proof. exists []. by rewrite app_nil_r. Qed.

Lemma extends_log_keeps p : keeps_log p → extends_log allowed p.
Proof. intros Hp st. exists []. by rewrite Hp, app_nil_r. Qed.

Lemma extends_log_read v k cont :
  (∀ x, extends_log allowed (cont x)) → extends_log allowed (read v k cont).
Proof.
  intros H st. unfold read.
  destruct (get_prop _ _ _); [apply H|apply extends_log_abort].
Qed.

Lemma extends_log_new o cont :
  (∀ x, extends_log allowed (cont x)) → extends_log allowed (new o cont).
Proof. intros H st. unfold new, alloc. apply (H _ (set_store _ st)). Qed.

Lemma extends_log_eval {A} (r : res A) cont :
  (∀ x, extends_log allowed (cont x)) → extends_log allowed (eval r cont).
Proof.
  intros H st. unfold eval. destruct r; [apply H|apply extends_log_abort].
Qed.

Lemma extends_log_assign_status v cont :
  extends_log allowed cont → extends_log allowed (assign_status v cont).
Proof. intros H st. unfold assign_status. apply (H (Build_vstate _ _ _ _ _)). Qed.

Lemma extends_log_assign_validatedData v cont :
  extends_log allowed cont → extends_log allowed (assign_validatedData v cont).
Proof.
  intros H st. unfold assign_validatedData. apply (H (Build_vstate _ _ _ _ _)).
Qed.

Lemma extends_log_assign_isValid b cont :
  extends_log allowed cont → extends_log allowed (assign_isValid b cont).
Proof. intros H st. unfold assign_isValid. apply (H (Build_vstate _ _ _ _ _)). Qed.

Lemma extends_log_if (b : bool) p q :
  extends_log allowed p → extends_log allowed q →
  extends_log allowed (if b then p else q).
Proof. by destruct b. Qed.

(** [request_failed] passes on the error that it was given. *)
Lemma extends_log_request_failed error data next :
  extends_log allowed (next error) →
  extends_log allowed (request_failed error data next).
Proof.
  intros H. unfold request_failed.
  destruct (truthy data);
    [apply extends_log_read; intros s|];
    apply extends_log_assign_status, extends_log_eval; intros m;
    apply extends_log_new; intros o;
    by apply extends_log_assign_validatedData.
Qed.

Lemma extends_log_status_failed s next :
  (∀ e, extends_log allowed (next e)) →
  extends_log allowed (status_failed s next).
Proof.
  intros H. unfold status_failed.
  apply extends_log_assign_status, extends_log_eval; intros m.
  apply extends_log_eval; intros text. apply extends_log_new; intros o.
  by apply extends_log_assign_validatedData.
Qed.
End logs.

Section request_log.
Variable config : option (gmap string value).
Variable request_post : string → gmap string value → value * value.
Variables secret receipt : value.

Local Abbreviation body := (content config secret receipt).

(** What [series] passes to the last task. *)
Local Abbreviation last_next :=
  (λ error, if truthy error then done receipt Called error
            else done receipt Called VUndef).

Lemma last_next_keeps_log e : keeps_log (last_next e).
Proof. intros st. destruct (truthy e); apply keeps_log_done. Qed.

Lemma trySandbox_log :
  extends_log (at_most_sandbox body)
    (trySandbox config request_post secret receipt last_next).
Proof.
  intros st. unfold trySandbox. destruct (isValid st).
  - exists []. rewrite app_nil_r. split; [apply (last_next_keeps_log VUndef)|by left].
  - unfold send. destruct (request_post sandboxPath body) as [error data].
    exists [(sandboxPath, body)]. split; [|by right].
    match goal with |- requests (final (?p ?st')) = _ => assert (keeps_log p) as Hp end.
    { apply keeps_log_if.
      - apply keeps_log_request_failed. apply last_next_keeps_log.
      - apply keeps_log_read; intros s. apply keeps_log_eval; intros b.
        apply keeps_log_if.
        + apply keeps_log_status_failed. apply last_next_keeps_log.
        + apply keeps_log_assign_validatedData. intros st'. apply keeps_log_done. }
    by rewrite Hp.
Qed.

(** What [series] passes to the first task. *)
Lemma first_next_log e :
  extends_log (at_most_sandbox body)
    (if truthy e then done receipt Called e
     else trySandbox config request_post secret receipt last_next).
Proof.
  destruct (truthy e).
  - apply extends_log_keeps; [by left|]. intros st. apply keeps_log_done.
  - apply trySandbox_log.
Qed.

(** X4: whatever the transport answers, and whether the run calls back or
    an exception escapes, the requests of a run are the production request
    alone or the production request followed by one sandbox request, both
    with the same body. *)
Theorem requests_of_a_run h :
  let log := requests (final (validatePurchase config request_post secret receipt
                                Called h)) in
  log = [(prodPath, body)] ∨ log = [(prodPath, body); (sandboxPath, body)].
Proof.
  cbv zeta. unfold validatePurchase. cbn [series]. unfold tryProd, send.
  destruct (request_post prodPath body) as [error data].
  match goal with
  | |- requests (final (?p ?st)) = _ ∨ _ =>
      assert (extends_log (at_most_sandbox body) p) as Hp
  end.
  { assert (at_most_sandbox body []) as Hnil by (by left).
    apply extends_log_if.
    - apply extends_log_request_failed; [done|]. apply (first_next_log error).
    - apply extends_log_read; [done|]; intros s.
      apply extends_log_eval; [done|]; intros positive.
      apply extends_log_if.
      + apply extends_log_status_failed; [done|]. intros e. apply (first_next_log e).
      + apply extends_log_if; [apply (first_next_log VUndef)|].
        apply extends_log_assign_validatedData, extends_log_assign_isValid.
        apply (first_next_log VUndef). }
  match goal with
  | |- requests (final (_ ?st)) = _ ∨ _ =>
      destruct (Hp st) as (more & -> & [->| ->])
  end; cbn [requests app]; auto.
Qed.
End request_log.

(** ** When the sandbox is tried *)

(** X5: the sandbox is tried exactly when Production answers, without a
    transport error, the status 21007 or 21002: after a transport error on
    Production it is not tried, whatever body came with the error, and
    after any other integer status, negative ones and 0 included, it is
    not tried either. *)
Theorem sandbox_exactly_on_wrong_environment config request_post secret receipt h :
  let o := validatePurchase config request_post secret receipt Called h in
  (∀ error data,
     request_post prodPath (content config secret receipt) = (error, data) →
     truthy error = true → sandbox_attempts o = 0) ∧
  (∀ s, production_answers config request_post secret receipt h s →
     sandbox_attempts o = if bool_decide (s = 21007 ∨ s = 21002)%Z then 1 else 0).
Proof.
  intros o. split.
  - intros error data Hp He. unfold sandbox_attempts, o, validatePurchase.
    cbn [series]. unfold tryProd, send. rewrite Hp, He.
    assert (extends_log (λ more, more = [])
              (request_failed error data
                 (λ error, if truthy error then done receipt Called error
                           else trySandbox config request_post secret receipt
                                  (λ error, if truthy error
                                            then done receipt Called error
                                            else done receipt Called VUndef))))
      as Hlog.
    { apply extends_log_request_failed; [done|]. rewrite He.
      apply extends_log_keeps; [done|]. intros st. apply keeps_log_done. }
    match goal with
    | |- context [final (?p ?st)] => destruct (Hlog st) as (more & Hreq & ->)
    end.
    rewrite Hreq. reflexivity.
  - intros s Hs. unfold sandbox_attempts, o. case_bool_decide as Henv.
    + rewrite sandbox_log; [done|].
      destruct Hs as (error & l & f & ? & ? & ? & ?). by exists error, l, f, s.
    + destruct (decide (0 < s)%Z) as [Hpos|Hpos].
      * destruct (mapped_message_string s) as [text Hm].
        destruct Hs as (error & l & f & ? & ? & ? & ?).
        erewrite run_production_status by (eassumption || lia). reflexivity.
      * rewrite (production_valid_log _ _ _ _ _ s) by (done || lia). reflexivity.
Qed.

(** X6: when Production answers 21007 or 21002 and the sandbox answers
    status 0 with a purchase list that is not empty, the run succeeds with
    the sandbox's payload itself, tagged with the service; the object that
    Production answered is as it was, and two requests were made. *)
Theorem sandbox_fallback_succeeds config request_post secret receipt h error l f :
  wrong_environment config request_post secret receipt h →
  request_post sandboxPath (content config secret receipt) = (error, VRef l) →
  truthy error = false →
  h !! l = Some (HObj f) →
  f !! "status" = Some (VNum (Int 0)) →
  empty_purchase h (VRef l) = Ok false →
  ∃ st,
    validatePurchase config request_post secret receipt Called h =
      Called VNull (VRef l) st ∧
    store st = <[l := HObj (tagged f)]> h ∧
    requests st = [(prodPath, content config secret receipt);
                   (sandboxPath, content config secret receipt)] ∧
    ∀ error' l', request_post prodPath (content config secret receipt) = (error', VRef l') →
                 store st !! l' = h !! l'.
Proof.
  intros Henv Hq He Hl Hs Hsound.
  erewrite run_sandbox_valid by (eassumption || done).
  erewrite handleResponse_run by (eassumption || done).
  cbn [store Z.eqb constants.VALIDATION_SUCCESS]. rewrite Hsound.
  eexists. split_and!; [reflexivity..|].
  intros error' l' Hp. cbn [store set_store].
  destruct Henv as (e1 & l1 & f1 & s1 & Hp1 & _ & Hl1 & Hs1 & Hs1').
  rewrite Hp in Hp1. injection Hp1 as -> ->.
  apply list_lookup_insert_ne. intros ->.
  rewrite Hl in Hl1. injection Hl1 as ->. rewrite Hs in Hs1.
  injection Hs1 as <-. lia.
Qed.

(** X7: there is no way back from the sandbox: every positive status that
    the sandbox answers, 21007 and 21002 among them, ends the run with an
    error that carries the message mapped to that status, and no third
    request is made. *)
Theorem sandbox_status_is_final config request_post secret receipt h error l f s :
  wrong_environment config request_post secret receipt h →
  request_post sandboxPath (content config secret receipt) = (error, VRef l) →
  truthy error = false →
  h !! l = Some (HObj f) →
  f !! "status" = Some (VNum (Int s)) →
  (0 < s)%Z →
  let o := validatePurchase config request_post secret receipt Called h in
  apple_status_error s o ∧
  requests (final o) = [(prodPath, content config secret receipt);
                        (sandboxPath, content config secret receipt)].
Proof.
  intros Henv Hq He Hl Hs Hpos o. unfold o.
  destruct (mapped_message_string s) as [text Hm].
  erewrite run_sandbox_status by eassumption.
  split; [|reflexivity].
  exists text, (length h). eexists. split_and!; [done..|].
  cbn [store]. by rewrite lookup_app_r, Nat.sub_diag.
Qed.

(** ** What a run leaves in the store *)

Lemma agree_outside_refl d h : agree_outside d h h.
Proof. by split. Qed.

Lemma agree_outside_trans d h1 h2 h3 :
  agree_outside d h1 h2 → agree_outside d h2 h3 → agree_outside d h1 h3.
Proof.
  intros [Hlen1 H1] [Hlen2 H2]. split; [lia|].
  intros l Hl Hd. rewrite H2 by (done || lia). by apply H1.
Qed.

Lemma agree_outside_alloc d o h : agree_outside d h (h ++ [o]).
Proof.
  split; [rewrite length_app; lia|].
  intros l Hl _. by apply lookup_app_l.
Qed.

Lemma agree_outside_set_prop h v k x h' :
  set_prop h v k x = Ok h' → agree_outside v h h'.
Proof.
  destruct v as [| | | | | |l]; cbn [set_prop]; try (intros [= <-]; apply agree_outside_refl);
    try discriminate.
  destruct (h !! l) as [[f|es]|]; try discriminate. intros [= <-].
  split; [by rewrite length_insert|].
  intros l' _ Hne. apply list_lookup_insert_ne. congruence.
Qed.

Section frame.
Lemma preserves_called e d : preserves_store (Called e d).
Proof. intros st. apply agree_outside_refl. Qed.

Lemma preserves_read v k cont :
  (∀ x, preserves_store (cont x)) → preserves_store (read v k cont).
Proof. intros H st. unfold read. destruct (get_prop _ _ _); [apply H|done]. Qed.

Lemma preserves_eval {A} (r : res A) cont :
  (∀ x, preserves_store (cont x)) → preserves_store (eval r cont).
Proof. intros H st. unfold eval. destruct r; [apply H|done]. Qed.

Lemma preserves_new o cont :
  (∀ x, preserves_store (cont x)) → preserves_store (new o cont).
Proof.
  intros H st. unfold new, alloc.
  specialize (H (VRef (length (store st))) (set_store (store st ++ [o]) st)).
  destruct (cont _ _) as [e d st'|]; [|done]. cbn [store set_store] in H.
  eapply agree_outside_trans; [apply agree_outside_alloc|exact H].
Qed.

Lemma preserves_assign_status v cont :
  preserves_store cont → preserves_store (assign_status v cont).
Proof.
  intros H st.
  exact (H {| store := store st; status := v; validatedData := validatedData st;
              isValid := isValid st; requests := requests st |}).
Qed.

Lemma preserves_assign_validatedData v cont :
  preserves_store cont → preserves_store (assign_validatedData v cont).
Proof.
  intros H st.
  exact (H {| store := store st; status := status st; validatedData := v;
              isValid := isValid st; requests := requests st |}).
Qed.

Lemma preserves_assign_isValid b cont :
  preserves_store cont → preserves_store (assign_isValid b cont).
Proof.
  intros H st.
  exact (H {| store := store st; status := status st;
              validatedData := validatedData st; isValid := b;
              requests := requests st |}).
Qed.

Lemma preserves_if (b : bool) p q :
  preserves_store p → preserves_store q → preserves_store (if b then p else q).
Proof. by destruct b. Qed.

Lemma preserves_send request_post url body cb :
  (∀ e d, preserves_store (cb e d)) → preserves_store (send request_post url body cb).
Proof.
  intros H st. unfold send. destruct (request_post url body) as [e d].
  exact (H e d {| store := store st; status := status st;
                  validatedData := validatedData st; isValid := isValid st;
                  requests := requests st ++ [(url, body)] |}).
Qed.

Lemma hands_back_called e v : hands_back v (Called e v).
Proof. intros st. split; [done|apply agree_outside_refl]. Qed.

Lemma hands_back_read w v k cont :
  (∀ x, hands_back w (cont x)) → hands_back w (read v k cont).
Proof. intros H st. unfold read. destruct (get_prop _ _ _); [apply H|done]. Qed.

Lemma hands_back_eval {A} w (r : res A) cont :
  (∀ x, hands_back w (cont x)) → hands_back w (eval r cont).
Proof. intros H st. unfold eval. destruct r; [apply H|done]. Qed.

Lemma hands_back_if w (b : bool) p q :
  hands_back w p → hands_back w q → hands_back w (if b then p else q).
Proof. by destruct b. Qed.

Lemma hands_back_write v k x cont :
  hands_back v cont → hands_back v (write v k x cont).
Proof.
  intros H st. unfold write.
  destruct (set_prop _ _ _ _) as [h'|] eqn:Hset; [|done].
  specialize (H (set_store h' st)).
  destruct (cont _) as [e d st'|]; [|done]. destruct H as [-> H].
  split; [done|]. cbn [store set_store] in H.
  eapply agree_outside_trans; [by eapply agree_outside_set_prop|exact H].
Qed.

Lemma hands_back_handleResponse receipt data :
  hands_back data (handleResponse receipt data Called).
Proof.
  unfold handleResponse.
  apply hands_back_write, hands_back_read; intros s.
  apply hands_back_if.
  - apply hands_back_read; intros r. apply hands_back_read; intros in_app.
    apply hands_back_if; [|apply hands_back_called].
    apply hands_back_read; intros len.
    apply hands_back_if; [|apply hands_back_called].
    apply hands_back_write, hands_back_read; intros s'.
    apply hands_back_eval; intros m.
    apply hands_back_write, hands_back_called.
  - apply hands_back_eval; intros m. apply hands_back_write, hands_back_called.
Qed.

Lemma preserves_done receipt error : preserves_store (done receipt Called error).
Proof.
  intros st. unfold done. destruct (truthy error); [apply agree_outside_refl|].
  pose proof (hands_back_handleResponse receipt (validatedData st) st) as H.
  destruct (handleResponse _ _ _ _) as [e d st'|]; [|done]. by destruct H as [-> H].
Qed.

Lemma preserves_request_failed error data next :
  preserves_store (next error) → preserves_store (request_failed error data next).
Proof.
  intros H. unfold request_failed.
  destruct (truthy data);
    [apply preserves_read; intros s|];
    apply preserves_assign_status, preserves_eval; intros m;
    apply preserves_new; intros o;
    by apply preserves_assign_validatedData.
Qed.

Lemma preserves_status_failed s next :
  (∀ e, preserves_store (next e)) → preserves_store (status_failed s next).
Proof.
  intros H. unfold status_failed.
  apply preserves_assign_status, preserves_eval; intros m.
  cbv zeta. apply preserves_eval; intros text.
  apply preserves_new; intros o.
  apply preserves_assign_validatedData, H.
Qed.

Lemma preserves_trySandbox config request_post secret receipt next :
  (∀ e, preserves_store (next e)) →
  preserves_store (trySandbox config request_post secret receipt next).
Proof.
  intros H st. unfold trySandbox. destruct (isValid st); [apply H|].
  apply preserves_send; intros e d.
  apply preserves_if; [by apply preserves_request_failed|].
  apply preserves_read; intros s. apply preserves_eval; intros positive.
  apply preserves_if; [by apply preserves_status_failed|].
  apply preserves_assign_validatedData, H.
Qed.

Lemma preserves_tryProd config request_post secret receipt next :
  (∀ e, preserves_store (next e)) →
  preserves_store (tryProd config request_post secret receipt next).
Proof.
  intros H. unfold tryProd.
  apply preserves_send; intros e d.
  apply preserves_if; [by apply preserves_request_failed|].
  apply preserves_read; intros s. apply preserves_eval; intros positive.
  apply preserves_if; [by apply preserves_status_failed|].
  apply preserves_if; [apply H|].
  apply preserves_assign_validatedData, preserves_assign_isValid, H.
Qed.
End frame.

(** X8: a run that calls back has changed no object that was in the store
    when it started, except the one it hands to the callback: the receipt,
    the configuration and, after a fallback to the sandbox, the object
    that Production answered are as they were. *)
Theorem run_changes_only_its_result config request_post secret receipt h error data st :
  validatePurchase config request_post secret receipt Called h = Called error data st →
  (length h ≤ length (store st))%nat ∧
  ∀ l, (l < length h)%nat → data ≠ VRef l → store st !! l = h !! l.
Proof.
  intros Hrun.
  assert (∀ e, preserves_store (if truthy e then done receipt Called e
                                else done receipt Called VUndef)) as Hlast.
  { intros e. apply preserves_if; apply preserves_done. }
  assert (∀ e, preserves_store
                 (if truthy e then done receipt Called e
                  else trySandbox config request_post secret receipt
                         (λ error, if truthy error then done receipt Called error
                                   else done receipt Called VUndef))) as Hfirst.
  { intros e. apply preserves_if; [apply preserves_done|].
    by apply preserves_trySandbox. }
  pose proof (preserves_tryProd config request_post secret receipt _ Hfirst
                {| store := h; status := VUndef; validatedData := VUndef;
                   isValid := false; requests := [] |}) as H.
  unfold validatePurchase in Hrun. cbn [series] in Hrun.
  rewrite Hrun in H. exact H.
Qed.

(** ** Answers that are not checked *)

(** X9: an answer that comes without a transport error and without a body
    ([undefined] or [null]) is not checked for: reading its status throws
    a TypeError, on Production and on the sandbox alike, the callback is
    not called, and the store is as it was. *)
Theorem answer_without_body_throws config request_post secret receipt h :
  let o := validatePurchase config request_post secret receipt Called h in
  (∀ error data,
     request_post prodPath (content config secret receipt) = (error, data) →
     truthy error = false → data = VUndef ∨ data = VNull →
     ∃ st, o = Aborted TypeError st ∧ store st = h) ∧
  (wrong_environment config request_post secret receipt h →
   ∀ error data,
     request_post sandboxPath (content config secret receipt) = (error, data) →
     truthy error = false → data = VUndef ∨ data = VNull →
     ∃ st, o = Aborted TypeError st ∧ store st = h).
Proof.
  intros o. split.
  - intros error data Hp He Hd. unfold o, validatePurchase. cbn [series].
    unfold tryProd, send. rewrite Hp, He. unfold read.
    destruct Hd as [-> | ->]; cbn [get_prop]; by eexists.
  - intros Henv error data Hq He Hd. unfold o.
    rewrite (run_sandbox _ _ _ _ _ _ Henv), Hq, He. unfold read.
    destruct Hd as [-> | ->]; cbn [get_prop]; by eexists.
Qed.

(** X10: an answer with status 0 that has no receipt is not checked for
    either: the handler throws a TypeError on the purchase list of the
    missing receipt, after it has set the service on the payload, and the
    callback is not called. *)
Theorem success_without_receipt_throws config request_post secret receipt h error l f :
  request_post prodPath (content config secret receipt) = (error, VRef l) →
  truthy error = false →
  h !! l = Some (HObj f) →
  f !! "status" = Some (VNum (Int 0)) →
  f !! "receipt" = None ∨ f !! "receipt" = Some VUndef ∨ f !! "receipt" = Some VNull →
  ∃ st,
    validatePurchase config request_post secret receipt Called h = Aborted TypeError st ∧
    store st = <[l := HObj (tagged f)]> h.
Proof.
  intros Hp He Hl Hs Hr.
  erewrite run_production_valid by (eassumption || done).
  erewrite handleResponse_run by (eassumption || done).
  cbn [Z.eqb constants.VALIDATION_SUCCESS store].
  assert (empty_purchase h (VRef l) = Abort TypeError) as ->.
  { unfold empty_purchase. rewrite (get_prop_obj _ _ _ _ Hl).
    destruct Hr as [-> | [-> | ->]]; reflexivity. }
  by eexists.
Qed.

(** ** The shape of the normalizer's output *)

Lemma array_set_length {A} (data : list (option A)) i x :
  (i ≤ length data)%nat →
  (length data ≤ length (array_set data i x) ≤ S (length data))%nat.
Proof.
  intros Hi. unfold array_set. case_decide.
  - rewrite length_insert. lia.
  - replace (i - length data)%nat with 0%nat by lia.
    cbn [replicate]. rewrite length_app. cbn [length app]. lia.
Qed.

Lemma array_set_dense {A} (data : list (option A)) i x :
  (i ≤ length data)%nat →
  array_set data i x =
    if decide (i < length data)%nat then <[i := Some x]> data else data ++ [Some x].
Proof.
  intros Hi. unfold array_set. case_decide; [done|].
  by replace (i - length data)%nat with 0%nat by lia.
Qed.

Lemma no_replacement_app es e : ∀ seen,
  no_replacement seen (es ++ [e]) ↔
  no_replacement seen es ∧
  ∀ q, q ∈ seen ++ es → key q = key e → num_lt (pdate q) (pdate e) = false.
Proof.
  induction es as [|e' es IH]; intros seen; cbn [app no_replacement].
  - rewrite app_nil_r. tauto.
  - rewrite IH. rewrite <- (app_assoc seen [e'] es). cbn [app]. tauto.
Qed.

Section output.
Variable ign : bool.
Variable now : Z.

Local Abbreviation run es := (foldl (step ign now) (∅, []) es).
Local Abbreviation kept es := (filter (λ e, skipped ign now e = false) es).
Local Abbreviation slot_of e := (Some (record e)).
Local Abbreviation slots es := ((λ e, Some (record e)) <$> kept es).

Lemma kept_snoc es e :
  kept (es ++ [e]) = if skipped ign now e then kept es else kept es ++ [e].
Proof.
  rewrite filter_app, filter_singleton; [|exact []].
  destruct (skipped ign now e); case_decide; try done. by rewrite app_nil_r.
Qed.

Lemma run_dated es : dated es (run es).
Proof.
  apply (steps_dated _ _ es [] (∅, [])). intros k t Hk.
  cbn [fst] in Hk. by rewrite lookup_empty in Hk.
Qed.

(** Whatever the items are, [data] has no hole, no more slots than items
    were kept, and each slot holds the record of a kept item. *)
Lemma run_shape es :
  slots_bounded (run es) ∧
  (length (run es).2 ≤ length (kept es))%nat ∧
  Forall (λ o, ∃ e, e ∈ kept es ∧ o = slot_of e) (run es).2 ∧
  (kept es ≠ [] → (run es).2 ≠ []).
Proof.
  induction es as [|e es (Hb & Hlen & Hall & Hne)] using rev_ind.
  - split_and!; [|done..]. intros k t Hk. cbn [foldl fst] in Hk.
    by rewrite lookup_empty in Hk.
  - rewrite foldl_app, kept_snoc. cbn [foldl].
    set (st := run es) in *. unfold step.
    destruct (skipped ign now e) eqn:Hskip; [done|]. cbn [fst snd].
    set (slot := match st.1 !! key e with
                 | Some t => if num_lt (time t) (pdate e) then index t else length st.2
                 | None => length st.2
                 end).
    assert (slot ≤ length st.2)%nat as Hslot.
    { unfold slot. destruct (st.1 !! key e) as [t|] eqn:Ht; [|done].
      destruct (num_lt _ _); [by eapply Hb|done]. }
    pose proof (array_set_length st.2 slot (record e) Hslot) as Hgrow.
    split_and!.
    + intros k t. cbn [fst snd]. destruct (decide (key e = k)) as [<-|Hk].
      * rewrite lookup_insert_eq. intros [= <-]. cbn [index]. lia.
      * rewrite lookup_insert_ne by done. intros Ht. specialize (Hb k t Ht). lia.
    + rewrite length_app. cbn [length]. lia.
    + assert (Forall (λ o, ∃ q, q ∈ kept es ++ [e] ∧ o = slot_of q) st.2) as Hall'.
      { eapply Forall_impl; [exact Hall|]. intros o (q & Hq & ->).
        exists q. rewrite elem_of_app. auto. }
      assert (∃ q, q ∈ kept es ++ [e] ∧ slot_of e = slot_of q) as He.
      { exists e. rewrite elem_of_app, list_elem_of_singleton. auto. }
      rewrite (array_set_dense _ _ _ Hslot). case_decide.
      * by apply Forall_insert.
      * apply Forall_app. split; [done|]. by apply Forall_singleton.
    + intros _ Hnil. pose proof (array_set_elem st.2 slot (record e)) as Hin.
      rewrite Hnil in Hin. by apply elem_of_nil in Hin.
Qed.

(** Where no entry is newer than an earlier one of its key, every kept
    entry is appended. *)
Lemma run_append_only es :
  no_replacement [] es → (run es).2 = slots es.
Proof.
  induction es as [|e es IH] using rev_ind; [done|].
  intros [Hes He]%no_replacement_app. specialize (IH Hes).
  rewrite foldl_app, kept_snoc. cbn [foldl].
  pose proof (run_dated es) as Hdated.
  set (st := run es) in *. unfold step.
  destruct (skipped ign now e) eqn:Hskip; [done|]. cbn [fst snd].
  assert (match st.1 !! key e with
          | Some t => if num_lt (time t) (pdate e) then index t else length st.2
          | None => length st.2
          end = length st.2) as ->.
  { destruct (st.1 !! key e) as [t|] eqn:Ht; [|done].
    destruct (Hdated _ _ Ht) as (q & Hq & Hk & <-).
    by rewrite (He q Hq Hk). }
  by rewrite array_set_end, fmap_app, IH.
Qed.

Lemma distinct_no_replacement es : NoDup (key <$> es) → no_replacement [] es.
Proof.
  induction es as [|e es IH] using rev_ind; [done|].
  rewrite fmap_app. intros (Hes & Hnew & _)%NoDup_app.
  apply no_replacement_app. split; [by apply IH|].
  intros q Hq Hk. destruct (Hnew (key q)).
  - by apply list_elem_of_fmap_2.
  - rewrite Hk. apply list_elem_of_singleton. reflexivity.
Qed.

(** Under distinct keys, [tids] files each kept entry at its own slot. *)
Lemma run_files es :
  NoDup (key <$> es) →
  ∀ i a, kept es !! i = Some a →
         (run es).1 !! key a = Some {| time := pdate a; index := i |}.
Proof.
  induction es as [|e es IH] using rev_ind; [done|].
  intros Hnodup. pose proof Hnodup as Hnodup'.
  rewrite fmap_app in Hnodup'. apply NoDup_app in Hnodup' as (Hes & Hnew & _).
  specialize (IH Hes).
  pose proof (run_append_only es (distinct_no_replacement es Hes)) as Hdata.
  intros i a. rewrite foldl_app, kept_snoc. cbn [foldl].
  set (st := run es) in *. unfold step.
  destruct (skipped ign now e) eqn:Hskip; [apply IH|]. cbn [fst snd].
  intros [Hi | [Hi Ha]]%lookup_app_Some.
  - rewrite lookup_insert_ne; [by apply IH|].
    intros Hk. destruct (Hnew (key a)).
    + apply list_elem_of_fmap_2. apply list_elem_of_lookup_2 in Hi.
      by apply list_elem_of_filter in Hi as [_ Hi].
    + rewrite <- Hk. apply list_elem_of_singleton. reflexivity.
  - destruct (i - length (kept es))%nat as [|n] eqn:Hn; [|done].
    injection Ha as <-. rewrite lookup_insert_eq. do 2 f_equal.
    rewrite Hdata, length_fmap. lia.
Qed.

(** An entry that follows distinct entries and has the key of one of
    them. *)
Lemma run_renewal es a b i :
  NoDup (key <$> es) →
  kept es !! i = Some a →
  key b = key a →
  skipped ign now b = false →
  (run (es ++ [b])).2 =
    if num_lt (pdate a) (pdate b) then <[i := slot_of b]> (slots es)
    else (slots es) ++ [slot_of b].
Proof.
  intros Hnodup Ha Hk Hskip.
  pose proof (run_append_only es (distinct_no_replacement es Hnodup)) as Hdata.
  pose proof (run_files es Hnodup i a Ha) as Hfile.
  rewrite foldl_app. cbn [foldl].
  set (st := run es) in *. unfold step. rewrite Hskip, Hk, Hfile.
  cbn [fst snd time index].
  destruct (num_lt (pdate a) (pdate b)).
  - rewrite Hdata. unfold array_set. rewrite decide_True; [done|].
    rewrite length_fmap. by eapply lookup_lt_Some.
  - by rewrite array_set_end, Hdata.
Qed.
End output.

Section lifted.
Variable now : Z.
Variable h : heap.
Variables purchase options : value.
Variable fr : gmap string value.
Variable ign : bool.
Hypothesis Hreceipt : receipt_object h purchase fr.
Hypothesis Hign : ignoreExpired h options = Ok ign.

Local Abbreviation bundle := (default VUndef (fr !! REC_KEYS.BUNDLE_ID)).

Lemma dropped_view item :
  well_formed_item h item →
  dropped now h options item = skipped ign now (view h bundle item).
Proof.
  intros (l & f & -> & Hl & Hf). unfold dropped, skipped, view.
  by rewrite Hign, (flat_expiry _ _ _ Hl Hf), Hl.
Qed.

Lemma record_of_view item :
  well_formed_item h item →
  record_of h purchase item = Some (record (view h bundle item)).
Proof.
  intros Hitem.
  pose proof (item_record_view h purchase fr Hreceipt item Hitem) as Hrec.
  destruct Hitem as (l & f & -> & Hl & Hf). unfold record_of.
  rewrite (flat_expiry _ _ _ Hl Hf).
  unfold view in Hrec. rewrite Hl in Hrec. cbn [expiry entry_of] in Hrec.
  rewrite Hrec. unfold view. by rewrite Hl.
Qed.

Lemma records_view items :
  Forall (well_formed_item h) items →
  records now h purchase options items =
    (λ e, Some (record e)) <$>
      filter (λ e, skipped ign now e = false) (view h bundle <$> items).
Proof.
  induction 1 as [|item items Hitem _ IH]; [done|].
  unfold records in *. rewrite fmap_cons, !filter_cons.
  rewrite (dropped_view _ Hitem).
  destruct (decide (skipped ign now (view h bundle item) = false)); [|done].
  by rewrite !fmap_cons, IH, record_of_view.
Qed.

Lemma kept_length items :
  Forall (well_formed_item h) items →
  length (filter (λ item, dropped now h options item = false) items) =
  length (filter (λ e, skipped ign now e = false) (view h bundle <$> items)).
Proof.
  intros Hitems. pose proof (records_view items Hitems) as H.
  apply (f_equal length) in H. unfold records in H.
  by rewrite !length_fmap in H.
Qed.
End lifted.

(** X11: on a modern payload with well-formed items, whatever their
    transaction ids and dates, the array returned has no hole, each of
    its slots holds the record of an item of the working list that the
    expiry test did not drop, it has no more slots than there are such
    items, and it is empty only when there is none. *)
Theorem output_shape now h purchase options items ign :
  modern_payload h purchase items →
  ignoreExpired h options = Ok ign →
  ∃ out,
    getPurchaseData now h purchase options = Ok (Some out) ∧
    (length out ≤
       length (filter (λ item, dropped now h options item = false) items))%nat ∧
    Forall (λ o, ∃ item r,
              item ∈ items ∧ dropped now h options item = false ∧
              record_of h purchase item = Some r ∧ o = Some r) out ∧
    (out = [] ↔ filter (λ item, dropped now h options item = false) items = []).
Proof.
  intros (fr & Hrec & Hia & Hwl & Hwf) Hign.
  set (bundle := default VUndef (fr !! REC_KEYS.BUNDLE_ID)).
  destruct (run_shape ign now (view h bundle <$> items))
    as (_ & Hlen & Hall & Hne).
  pose proof (kept_length now h purchase options fr ign Hrec Hign items Hwf) as Hkept.
  fold bundle in Hkept.
  eexists. split; [by eapply modern_run|]. fold bundle. split_and!.
  - by rewrite Hkept.
  - eapply Forall_impl; [exact Hall|]. intros o (e & He & ->).
    apply list_elem_of_filter in He as [Hskip He].
    apply list_elem_of_fmap in He as (item & -> & Hitem).
    pose proof (proj1 (Forall_forall _ _) Hwf item Hitem) as Hw.
    exists item, (record (view h bundle item)). split_and!; [done| | |done].
    + by rewrite (dropped_view now h options fr ign Hign item Hw).
    + by apply record_of_view.
  - split.
    + intros Hout. apply length_zero_iff_nil. rewrite Hkept.
      destruct (filter _ (view h bundle <$> items)); [done|].
      by destruct Hne.
    + intros Hnone. apply length_zero_iff_nil.
      rewrite Hnone in Hkept. cbn [length] in Hkept. lia.
Qed.

(** X12: when no item of the working list is newer than an item before it
    that has the same original transaction id (the ids are distinct, or
    the list runs from the newest to the oldest), the array returned is
    exactly the records of the items that the expiry test did not drop,
    in the order of the working list. *)
Theorem output_without_replacement now h purchase options items ign :
  modern_payload h purchase items →
  ignoreExpired h options = Ok ign →
  none_replaces h [] items →
  getPurchaseData now h purchase options =
    Ok (Some (records now h purchase options items)).
Proof.
  intros (fr & Hrec & Hia & Hwl & Hwf) Hign Hnone.
  erewrite modern_run by eassumption.
  rewrite (records_view now h purchase options fr ign Hrec Hign items Hwf).
  rewrite run_append_only; [done|].
  by apply (none_replaces_entries h _ items []).
Qed.

(** X13: an item that follows items of pairwise distinct original
    transaction ids and has the id of one of them, neither being dropped:
    when it is the newer of the two its record is written over the record
    of the other, at that one's slot, and the array does not grow; when it
    is not newer its record is appended, and both records are returned. *)
Theorem renewal_replaces_original now h purchase options p1 a p2 b ign ta tb :
  modern_payload h purchase ((p1 ++ a :: p2) ++ [b]) →
  ignoreExpired h options = Ok ign →
  NoDup (tid_key h <$> p1 ++ a :: p2) →
  tid_key h b = tid_key h a →
  dropped now h options a = false →
  dropped now h options b = false →
  purchase_date h a = Ok ta →
  purchase_date h b = Ok tb →
  getPurchaseData now h purchase options =
    Ok (Some (
      if num_lt ta tb then
        <[length (filter (λ item, dropped now h options item = false) p1) :=
            record_of h purchase b]>
          (records now h purchase options (p1 ++ a :: p2))
      else
        records now h purchase options (p1 ++ a :: p2) ++ [record_of h purchase b])).
Proof.
  intros (fr & Hrec & Hia & Hwl & Hwf) Hign Hnodup Hk Ha Hb Hta Htb.
  set (bundle := default VUndef (fr !! REC_KEYS.BUNDLE_ID)).
  pose proof Hwf as Hwf'.
  apply Forall_app in Hwf' as [Hpre Hwb]. rewrite Forall_singleton in Hwb.
  pose proof Hpre as Hpre'.
  apply Forall_app in Hpre' as [Hw1 Hw2]. apply Forall_cons in Hw2 as [Hwa Hw2].
  rewrite (dropped_view now h options fr ign Hign a Hwa) in Ha.
  rewrite (dropped_view now h options fr ign Hign b Hwb) in Hb.
  rewrite (tid_key_view h bundle a Hwa), (tid_key_view h bundle b Hwb) in Hk.
  injection Hk as Hk.
  rewrite (purchase_date_view h bundle a Hwa) in Hta. injection Hta as <-.
  rewrite (purchase_date_view h bundle b Hwb) in Htb. injection Htb as <-.
  assert (NoDup (key <$> (view h bundle <$> p1 ++ a :: p2))) as Hdistinct.
  { apply (NoDup_fmap_1 Ok).
    replace (Ok <$> (key <$> (view h bundle <$> p1 ++ a :: p2)))
      with (tid_key h <$> p1 ++ a :: p2); [done|].
    rewrite <- !list_fmap_compose. apply Forall_fmap_ext.
    eapply Forall_impl; [exact Hpre|]. intros item Hitem.
    by apply tid_key_view. }
  erewrite modern_run by eassumption. fold bundle. rewrite fmap_app. cbn [fmap list_fmap].
  change (list_fmap _ _ (view h bundle)) with (fmap (M := list) (view h bundle)).
  rewrite (run_renewal ign now _ (view h bundle a) (view h bundle b)
             (length (filter (λ e, skipped ign now e = false) (view h bundle <$> p1))));
    [|done| |done..].
  - rewrite (records_view now h purchase options fr ign Hrec Hign _ Hpre).
    rewrite (kept_length now h purchase options fr ign Hrec Hign p1 Hw1).
    by rewrite (record_of_view h purchase fr Hrec b Hwb).
  - rewrite fmap_app, fmap_cons, filter_app, filter_cons_True by done.
    by apply list_lookup_middle.
Qed.

(** X14: [null] is returned exactly when there is no payload or the
    payload has no receipt; with a receipt the result is an array, for
    every value of the options and of the clock. *)
Theorem null_only_without_receipt now h purchase options :
  getPurchaseData now h purchase options = Ok None ↔
  truthy purchase = false ∨
  ∃ receipt, get_prop h purchase "receipt" = Ok receipt ∧ truthy receipt = false.
Proof.
  unfold getPurchaseData.
  destruct (truthy purchase) eqn:Hp; cbn [negb]; [|by intuition].
  destruct (get_prop h purchase "receipt") as [receipt|e] eqn:Hr; cbn [mbind res_bind].
  - destruct (truthy receipt) eqn:Ht; cbn [negb].
    + split.
      * intros Hnull. exfalso.
        destruct (get_prop h receipt REC_KEYS.IN_APP) as [in_app|]; [|done].
        cbn [mbind res_bind] in Hnull. destruct (truthy in_app).
        -- destruct (working_list _ _ _) as [items|]; [|done].
           cbn [mbind res_bind] in Hnull.
           by destruct (loop _ _ _ _ _ _).
        -- repeat (match type of Hnull with
                   | context [mbind _ ?r] => destruct r; cbn [mbind res_bind] in Hnull
                   end; [|done]).
           done.
      * intros [?|(r & [= <-] & ?)]; congruence.
    + split; [|done]. intros _. right. by exists receipt.
  - split; [done|]. intros [?|(r & ? & _)]; congruence.
Qed.

(** ** From a validated receipt to its records *)

Section ensures.
Variable post : value → value → vstate → Prop.

Lemma ensures_read v k cont :
  (∀ x, ensures post (cont x)) → ensures post (read v k cont).
Proof. intros H st. unfold read. destruct (get_prop _ _ _); [apply H|done]. Qed.

Lemma ensures_eval {A} (r : res A) cont :
  (∀ x, ensures post (cont x)) → ensures post (eval r cont).
Proof. intros H st. unfold eval. destruct r; [apply H|done]. Qed.

Lemma ensures_new o cont :
  (∀ x, ensures post (cont x)) → ensures post (new o cont).
Proof. intros H st. unfold new, alloc. apply H. Qed.

Lemma ensures_assign_status v cont :
  ensures post cont → ensures post (assign_status v cont).
Proof. intros H st. apply H. Qed.

Lemma ensures_assign_validatedData v cont :
  ensures post cont → ensures post (assign_validatedData v cont).
Proof. intros H st. apply H. Qed.

Lemma ensures_assign_isValid b cont :
  ensures post cont → ensures post (assign_isValid b cont).
Proof. intros H st. apply H. Qed.

Lemma ensures_if (b : bool) p q :
  ensures post p → ensures post q → ensures post (if b then p else q).
Proof. by destruct b. Qed.

Lemma ensures_send request_post url body cb :
  (∀ e d, ensures post (cb e d)) → ensures post (send request_post url body cb).
Proof.
  intros H st. unfold send. destruct (request_post url body) as [e d]. apply H.
Qed.

Lemma ensures_request_failed error data next :
  ensures post (next error) → ensures post (request_failed error data next).
Proof.
  intros H. unfold request_failed.
  destruct (truthy data);
    [apply ensures_read; intros s|];
    apply ensures_assign_status, ensures_eval; intros m;
    apply ensures_new; intros o;
    by apply ensures_assign_validatedData.
Qed.

Lemma ensures_status_failed s next :
  (∀ e, ensures post (next e)) → ensures post (status_failed s next).
Proof.
  intros H. unfold status_failed.
  apply ensures_assign_status, ensures_eval; intros m.
  cbv zeta. apply ensures_eval; intros text.
  apply ensures_new; intros o.
  apply ensures_assign_validatedData, H.
Qed.

Lemma ensures_trySandbox config request_post secret receipt next :
  (∀ e, ensures post (next e)) →
  ensures post (trySandbox config request_post secret receipt next).
Proof.
  intros H st. unfold trySandbox. destruct (isValid st); [apply H|].
  apply ensures_send; intros e d.
  apply ensures_if; [by apply ensures_request_failed|].
  apply ensures_read; intros s. apply ensures_eval; intros positive.
  apply ensures_if; [by apply ensures_status_failed|].
  apply ensures_assign_validatedData, H.
Qed.

Lemma ensures_tryProd config request_post secret receipt next :
  (∀ e, ensures post (next e)) →
  ensures post (tryProd config request_post secret receipt next).
Proof.
  intros H. unfold tryProd.
  apply ensures_send; intros e d.
  apply ensures_if; [by apply ensures_request_failed|].
  apply ensures_read; intros s. apply ensures_eval; intros positive.
  apply ensures_if; [by apply ensures_status_failed|].
  apply ensures_if; [apply H|].
  apply ensures_assign_validatedData, ensures_assign_isValid, H.
Qed.

Lemma ensures_validatePurchase config request_post secret receipt h :
  (∀ e, ensures post (done receipt Called e)) →
  match validatePurchase config request_post secret receipt Called h with
  | Called e d st => post e d st
  | Aborted _ _ => True
  end.
Proof.
  intros Hdone. unfold validatePurchase. cbn [series].
  apply ensures_tryProd. intros e.
  apply ensures_if; [apply Hdone|].
  apply ensures_trySandbox. intros e'. apply ensures_if; apply Hdone.
Qed.
End ensures.

Lemma sound_handleResponse receipt data :
  ensures sound_success (handleResponse receipt data Called).
Proof.
  intros st. unfold handleResponse, write.
  destruct (set_prop (store st) data "service" _) as [h1|]; [|done].
  unfold read at 1. cbn [store set_store].
  destruct (get_prop h1 data "status") as [s|]; [|done].
  destruct (strict_eq_int s constants.VALIDATION_SUCCESS).
  - unfold read at 1. cbn [store set_store].
    destruct (get_prop h1 data "receipt") as [r|] eqn:Hr; [|done].
    unfold read at 1. cbn [store set_store].
    destruct (get_prop h1 r REC_KEYS.IN_APP) as [in_app|] eqn:Hi; [|done].
    destruct (truthy in_app) eqn:Ht.
    + unfold read at 1. cbn [store set_store].
      destruct (get_prop h1 in_app "length") as [len|] eqn:Hlen; [|done].
      destruct (negb (truthy len)) eqn:Hneg.
      * destruct (set_prop _ _ _ _) as [h2|]; [|done].
        unfold read, eval. cbn [store set_store].
        destruct (get_prop h2 data "status") as [s'|]; [|done].
        destruct (errorMap_get s') as [m|]; [|done].
        by destruct (set_prop _ _ _ _).
      * intros _. unfold empty_purchase. cbn [store set_store].
        rewrite Hr. cbn [mbind res_bind]. rewrite Hi. cbn [mbind res_bind].
        rewrite Ht, Hlen. cbn [mbind res_bind]. by rewrite Hneg.
    + intros _. unfold empty_purchase. cbn [store set_store].
      rewrite Hr. cbn [mbind res_bind]. rewrite Hi. cbn [mbind res_bind].
      by rewrite Ht.
  - unfold eval. destruct (errorMap_get s) as [m|]; [|done].
    by destruct (set_prop _ _ _ _).
Qed.

Lemma sound_done receipt error : ensures sound_success (done receipt Called error).
Proof.
  intros st. unfold done. destruct (truthy error) eqn:He.
  - intros ->. discriminate.
  - apply sound_handleResponse.
Qed.

(** X15: the two exported functions fit together: a payload of the modern
    format that a run reports as valid gives, where expired items are not
    to be ignored, an array of at least one record. *)
Theorem validated_receipt_has_purchases
    config request_post secret receipt h now l st items options :
  validatePurchase config request_post secret receipt Called h =
    Called VNull (VRef l) st →
  modern_payload (store st) (VRef l) items →
  ignoreExpired (store st) options = Ok false →
  ∃ out,
    getPurchaseData now (store st) (VRef l) options = Ok (Some out) ∧ out ≠ [].
Proof.
  intros Hrun (fr & Hrec & Hia & Hwl & Hwf) Hign.
  pose proof (ensures_validatePurchase sound_success config request_post secret
                receipt h (sound_done receipt)) as Hsound.
  rewrite Hrun in Hsound. specialize (Hsound eq_refl).
  set (bundle := default VUndef (fr !! REC_KEYS.BUNDLE_ID)).
  assert (items ≠ []) as Hitems.
  { destruct Hrec as (lp & fp & lr & [= <-] & Hlp & Hr & Hlr).
    unfold empty_purchase in Hsound.
    rewrite (get_prop_obj _ _ _ _ Hlp), Hr in Hsound.
    cbn [default from_option id mbind res_bind] in Hsound.
    rewrite (get_prop_obj _ _ _ _ Hlr) in Hsound.
    cbn [mbind res_bind] in Hsound. rewrite Hia in Hsound.
    unfold working_list in Hwl.
    destruct (default VUndef (fr !! REC_KEYS.IN_APP)) as [| | | | | |la]; try done.
    cbn [as_array get_prop] in Hwl, Hsound.
    destruct (store st !! la) as [[g|es]|]; try done.
    cbn [mbind res_bind String.eqb Ascii.eqb Bool.eqb andb] in Hwl, Hsound.
    destruct es as [|item es]; [done|].
    rewrite Hlp in Hwl. cbn [mbind res_bind] in Hwl.
    destruct (truthy _ && isArray _ _).
    - destruct (as_array _ _) as [more|]; [|done].
      cbn [mbind res_bind] in Hwl. by injection Hwl as <-.
    - by injection Hwl as <-. }
  eexists. split; [by eapply modern_run|]. fold bundle.
  apply (run_shape false now). destruct items as [|item items]; [done|].
  rewrite fmap_cons, filter_cons_True; done.
Qed.

(** * The further properties at concrete inputs *)

(** A configuration with a password and a key that is not Apple's. *)
Lemma readConfig_keeps_apple_keys_witness :
  ∃ m', readConfig config_example (VRef 0) {| config := None; request := [] |} = Ok m' ∧
        configured (config m') "applePassword" = Some (VStr "pw") ∧
        configured (config m') "verbose" = None ∧
        request m' = [VStr "defaults"].
Proof.
  destruct (proj1 (readConfig_keeps_apple_keys config_example
                     {| config := None; request := [] |}) 0%nat
              {[ "applePassword" := VStr "pw"; "verbose" := VBool true;
                 "requestDefaults" := VStr "defaults" ]} eq_refl)
    as (m' & Hrun & Hkeys & _ & Hreq).
  exists m'. split_and!; [exact Hrun|rewrite Hkeys; reflexivity..|exact Hreq].
Defined.

(** No configuration, and a password in the environment. *)
Lemma setup_password_fallback_witness :
  let m := setup (VStr "env") {| config := None; request := [] |} in
  applePassword (config m) = VStr "env" ∧ configured (config m) "appleOther" = None.
Proof.
  destruct (setup_password_fallback (VStr "env") {| config := None; request := [] |})
    as (Hp & Hother & _).
  split; [exact Hp|]. by apply Hother.
Defined.

Lemma request_body_password_witness :
  let body := content (config (setup (VStr "env") {| config := None; request := [] |}))
                VUndef (VStr "receipt") in
  body !! "password" = Some (VStr "env") ∧ body !! "exclude-old-transactions" = None.
Proof.
  destruct (request_body_password (VStr "env") {| config := None; request := [] |}
              VUndef (VStr "receipt")) as (_ & Hp & Hother).
  split; [exact Hp|]. by apply Hother.
Defined.

(** Production answers 21007. *)
Lemma sandbox_exactly_on_wrong_environment_witness :
  sandbox_attempts
    (validatePurchase None (λ _ _, (VNull, VRef 0)) VUndef (VStr "receipt") Called
       (status_only 21007)) = 1%nat.
Proof.
  apply (proj2 (sandbox_exactly_on_wrong_environment None (λ _ _, (VNull, VRef 0))
                  VUndef (VStr "receipt") (status_only 21007)) 21007%Z).
  exists VNull, 0%nat, {[ "status" := VNum (Int 21007) ]}.
  split_and!; reflexivity.
Defined.

(** Production answers 21007 and the sandbox status 0. *)
Lemma sandbox_fallback_succeeds_witness :
  ∃ st,
    validatePurchase None (by_endpoint (VNull, VRef 0) (VNull, VRef 1)) VUndef
      (VStr "receipt") Called (fallback_example 0) = Called VNull (VRef 1) st ∧
    store st !! 0%nat = fallback_example 0 !! 0%nat.
Proof.
  destruct (sandbox_fallback_succeeds None (by_endpoint (VNull, VRef 0) (VNull, VRef 1))
              VUndef (VStr "receipt") (fallback_example 0) VNull 1%nat
              {[ "status" := VNum (Int 0); "receipt" := VRef 2 ]})
    as (st & Hrun & _ & _ & Hprod); [|reflexivity..|].
  - exists VNull, 0%nat, {[ "status" := VNum (Int 21007) ]}, 21007%Z.
    split_and!; [reflexivity..|by left].
  - exists st. split; [exact Hrun|]. by apply (Hprod VNull).
Defined.

(** Production answers 21007 and the sandbox 21002. *)
Lemma sandbox_status_is_final_witness :
  let o := validatePurchase None (by_endpoint (VNull, VRef 0) (VNull, VRef 1)) VUndef
             (VStr "receipt") Called (fallback_example 21002) in
  apple_status_error 21002 o ∧
  requests (final o) = [(prodPath, {[ "receipt-data" := VStr "receipt" ]});
                        (sandboxPath, {[ "receipt-data" := VStr "receipt" ]})].
Proof.
  apply (sandbox_status_is_final None (by_endpoint (VNull, VRef 0) (VNull, VRef 1))
           VUndef (VStr "receipt") (fallback_example 21002) VNull 1%nat
           {[ "status" := VNum (Int 21002); "receipt" := VRef 2 ]} 21002%Z);
    [|reflexivity..|lia].
  exists VNull, 0%nat, {[ "status" := VNum (Int 21007) ]}, 21007%Z.
  split_and!; [reflexivity..|by left].
Defined.

(** Production validates a receipt with one purchase: the item is as it
    was. *)
Lemma run_changes_only_its_result_witness :
  let h := modern_example [purchase_item "T1" "a" "100"] in
  let st := final (validatePurchase None (λ _ _, (VNull, VRef 0)) VUndef
                     (VStr "receipt") Called h) in
  store st !! 3%nat = h !! 3%nat.
Proof.
  intros h st.
  apply (proj2 (run_changes_only_its_result None (λ _ _, (VNull, VRef 0)) VUndef
                  (VStr "receipt") h VNull (VRef 0) st eq_refl) 3%nat).
  - simpl. lia.
  - discriminate.
Defined.

(** Production answers without a body. *)
Lemma answer_without_body_throws_witness :
  ∃ st, validatePurchase None (λ _ _, (VNull, VUndef)) VUndef (VStr "receipt")
          Called [] = Aborted TypeError st ∧ store st = [].
Proof.
  apply (proj1 (answer_without_body_throws None (λ _ _, (VNull, VUndef)) VUndef
                  (VStr "receipt") []) VNull VUndef);
    [reflexivity..|by left].
Defined.

(** Production answers status 0 and nothing else. *)
Lemma success_without_receipt_throws_witness :
  ∃ st,
    validatePurchase None (λ _ _, (VNull, VRef 0)) VUndef (VStr "receipt") Called
      (status_only 0) = Aborted TypeError st ∧
    store st =
      <[0%nat := HObj (tagged {[ "status" := VNum (Int 0) ]})]> (status_only 0).
Proof.
  apply (success_without_receipt_throws None (λ _ _, (VNull, VRef 0)) VUndef
           (VStr "receipt") (status_only 0) VNull 0%nat
           {[ "status" := VNum (Int 0) ]});
    [reflexivity..|by left].
Defined.

Lemma distinct_example_modern :
  modern_payload
    (modern_example [purchase_item "T1" "a" "100"; purchase_item "T2" "b" "200"])
    (VRef 0) [VRef 3; VRef 4].
Proof.
  exists {[ "bundle_id" := VStr "com.x"; "in_app" := VRef 2 ]}. split_and!.
  - by exists 0%nat, {[ "status" := VNum (Int 0); "receipt" := VRef 1 ]}, 1%nat.
  - reflexivity.
  - reflexivity.
  - repeat apply Forall_cons_2; [| |apply Forall_nil_2];
      (eexists _, _; split_and!; [reflexivity..|]);
      apply (bool_decide_unpack _); vm_compute; exact I.
Defined.

(** A subscription and its renewal, with the clock at 1000. *)
Lemma output_shape_witness :
  ∃ out,
    getPurchaseData 1000 renewal_example (VRef 0) (VRef 5) = Ok (Some out) ∧
    (length out ≤ 2)%nat ∧ out ≠ [].
Proof.
  destruct (output_shape 1000 renewal_example (VRef 0) (VRef 5) [VRef 3; VRef 4] true)
    as (out & Hout & Hlen & _ & Hempty);
    [apply renewal_example_modern|reflexivity|].
  exists out. split_and!; [exact Hout|exact Hlen|].
  intros Hnil. apply Hempty in Hnil. discriminate Hnil.
Defined.

(** Two items of two transactions. *)
Lemma output_without_replacement_witness :
  getPurchaseData 0
    (modern_example [purchase_item "T1" "a" "100"; purchase_item "T2" "b" "200"])
    (VRef 0) VUndef =
    Ok (Some [Some (purchase_record "a"); Some (purchase_record "b")]).
Proof.
  apply (output_without_replacement 0
           (modern_example [purchase_item "T1" "a" "100"; purchase_item "T2" "b" "200"])
           (VRef 0) VUndef [VRef 3; VRef 4] false);
    [apply distinct_example_modern|reflexivity|].
  split; [intros q a b Hq; by apply elem_of_nil in Hq|].
  split; [|exact I].
  intros q a b Hq%list_elem_of_singleton Hk. subst q. discriminate Hk.
Defined.

(** The renewal, bought at 200, of a subscription bought at 100. *)
Lemma renewal_replaces_original_witness :
  getPurchaseData 1000 renewal_example (VRef 0) (VRef 5) =
    Ok (Some [record_of renewal_example (VRef 0) (VRef 4)]).
Proof.
  apply (renewal_replaces_original 1000 renewal_example (VRef 0) (VRef 5)
           [] (VRef 3) [] (VRef 4) true (Int 100) (Int 200));
    [apply renewal_example_modern|reflexivity|apply NoDup_singleton|reflexivity..].
Defined.

(** Production validates a receipt with one purchase. *)
Lemma validated_receipt_has_purchases_witness :
  let st := final (validatePurchase None (λ _ _, (VNull, VRef 0)) VUndef
                     (VStr "receipt") Called
                     (modern_example [purchase_item "T1" "a" "100"])) in
  ∃ out, getPurchaseData 0 (store st) (VRef 0) VUndef = Ok (Some out) ∧ out ≠ [].
Proof.
  intros st.
  apply (validated_receipt_has_purchases None (λ _ _, (VNull, VRef 0)) VUndef
           (VStr "receipt") (modern_example [purchase_item "T1" "a" "100"])
           0 0%nat st [VRef 3] VUndef); [reflexivity| |reflexivity].
  exists {[ "bundle_id" := VStr "com.x"; "in_app" := VRef 2 ]}. split_and!.
  - by exists 0%nat,
      (tagged {[ "status" := VNum (Int 0); "receipt" := VRef 1 ]}), 1%nat.
  - reflexivity.
  - reflexivity.
  - apply Forall_cons_2; [|apply Forall_nil_2].
    eexists _, _; split_and!; [reflexivity..|].
    apply (bool_decide_unpack _); vm_compute; exact I.
Defined.

